(** * Protractor plugin manager ([lib/plugins.ts])

    A shallow embedding of the [Plugins] class and of [pluginFunFactory]:
    the assertion store, the three capabilities installed on every plugin
    object, the report, the isolated hook call and the fan-out over the
    registered plugins.

    JavaScript values are a small inductive type, exceptions are values,
    the mutable [Plugins] object and the logger output are threaded as an
    explicit state, and an asynchronous completion is an explicit event. *)

From stdpp Require Import base list strings pretty.
From Stdlib Require Import ZArith Lia Sorted.

Open Scope string_scope.
Open Scope list_scope.

Definition dquote : string := String (Ascii.ascii_of_nat 34) EmptyString.

(** ** JavaScript values *)

(** A property declared [x?: string]: [None] is [undefined]. *)
Abbreviation ostring := (option string).

(** The values a hook can receive, return, throw or reject with.  A number
    and an object carry what this file observes of them: a number the text
    its string conversion yields and whether it is truthy (neither zero nor
    NaN), an object its [message] and [stack] properties and the text its
    string conversion yields. *)
Inductive value : Type :=
| VUndefined
| VNull
| VBool (b : bool)
| VNum (repr : string) (nonzero : bool)
| VStr (s : string)
| VObj (message stack : ostring) (repr : string).

(** ToBoolean. *)
Definition truthy (v : value) : bool :=
  match v with
  | VUndefined | VNull => false
  | VBool b => b
  | VNum _ nonzero => nonzero
  | VStr s => negb (String.eqb s EmptyString)
  | VObj _ _ _ => true
  end.

(** ToString, as string concatenation applies it. *)
Definition to_string (v : value) : string :=
  match v with
  | VUndefined => "undefined"
  | VNull => "null"
  | VBool true => "true"
  | VBool false => "false"
  | VNum repr _ => repr
  | VStr s => s
  | VObj _ _ r => r
  end.

Definition of_ostring (o : ostring) : value :=
  match o with
  | Some s => VStr s
  | None => VUndefined
  end.

Definition truthy_s (o : ostring) : bool := truthy (of_ostring o).
Definition ostring_to_string (o : ostring) : string := to_string (of_ostring o).

(** [a || b] on values, and the two typed instances the source uses. *)
Definition js_or (a b : value) : value := if truthy a then a else b.

Definition oor (a b : ostring) : ostring := if truthy_s a then a else b.

Definition or_str (a : ostring) (b : string) : string :=
  match a with
  | Some s => if truthy_s a then s else b
  | None => b
  end.

(** [new Error(msg)] and the engine's [TypeError].  The stack text of a real
    engine continues with the call frames. *)
Definition mkError (kind msg : string) : value :=
  VObj (Some msg) (Some (kind +:+ ": " +:+ msg)) (kind +:+ ": " +:+ msg).

Definition Error_ (msg : string) : value := mkError "Error" msg.
Definition TypeError (msg : string) : value := mkError "TypeError" msg.

(** ** Data of the module *)

Inductive PromiseType : Type := Q | WEBDRIVER.

(** The settled or unsettled state of an awaitable. *)
Inductive promise (A : Type) : Type :=
| Pending
| Fulfilled (a : A)
| Rejected (e : value).
Arguments Pending {A}.
Arguments Fulfilled {A} a.
Arguments Rejected {A} e.

(** What invoking a hook does: return a plain value, return an awaitable
    (given by the state it eventually reaches; [Pending] never settles), or
    throw. *)
Inductive outcome : Type :=
| Returns (v : value)
| ReturnsPromise (eventual : promise value)
| Throws (e : value).

(** A hook is given by how its invocation ends.  What the plugin does with
    its capabilities, inside a hook or later, is not part of the hook here:
    each such call is an action of its own in a run (see [action]), and
    the plugin object is taken as the manager leaves it. *)
Definition hook : Type := list value -> outcome.

(** [PluginConfig]; its [inline] member is read by the loader only. *)
Record PluginConfig : Type := {
  path : ostring;
  package : ostring;
  conf_name : ostring
}.

(** [ProtractorPlugin]: the members the manager reads and writes.  The
    capabilities [addFailure], [addSuccess] and [addWarning] are closures
    over the object and the manager; they are the functions of the same name
    below, applied to the object. *)
Record ProtractorPlugin : Type := {
  skipAngularStability : bool;
  name : ostring;
  config : option PluginConfig;
  hooks : string -> option hook
}.

(** The [info] / [options] argument of the capabilities. *)
Record info : Type := {
  specName : ostring;
  info_stackTrace : ostring
}.

Definition no_info : info := {| specName := None; info_stackTrace := None |}.

(** An assertion record.  [None] means the property was never written;
    [errorMsg] holds whatever value was passed as message. *)
Record assertion : Type := {
  passed : bool;
  errorMsg : option value;
  stackTrace : option ostring
}.

Record specResult : Type := {
  description : string;
  assertions_of : list assertion
}.

Record results : Type := {
  failedCount : nat;
  specResults : list specResult
}.

(** The arrays of the [assertions] object: its own keys that hold an array
    of records, in creation order. *)
Definition store : Type := list (string * list assertion).

(** ** What every object inherits

    [this.assertions] is an ordinary object, so reading a key it does not
    own falls through to [Object.prototype].  These are the names found
    there: eleven methods, which an assignment copies down as own
    properties, and the accessor [__proto__], which an assignment does not
    copy. *)
Inductive copyable : Type :=
| PConstructor | PHasOwnProperty | PIsPrototypeOf | PPropertyIsEnumerable
| PToLocaleString | PToString | PValueOf
| PDefineGetter | PDefineSetter | PLookupGetter | PLookupSetter.

Definition copyable_name (c : copyable) : string :=
  match c with
  | PConstructor => "constructor"
  | PHasOwnProperty => "hasOwnProperty"
  | PIsPrototypeOf => "isPrototypeOf"
  | PPropertyIsEnumerable => "propertyIsEnumerable"
  | PToLocaleString => "toLocaleString"
  | PToString => "toString"
  | PValueOf => "valueOf"
  | PDefineGetter => "__defineGetter__"
  | PDefineSetter => "__defineSetter__"
  | PLookupGetter => "__lookupGetter__"
  | PLookupSetter => "__lookupSetter__"
  end.

Definition all_copyable : list copyable :=
  [PConstructor; PHasOwnProperty; PIsPrototypeOf; PPropertyIsEnumerable;
   PToLocaleString; PToString; PValueOf;
   PDefineGetter; PDefineSetter; PLookupGetter; PLookupSetter].

Inductive proto_lookup : Type :=
| FromPrototype (c : copyable)
| ProtoAccessor
| NoSuch.

(** [Object.prototype[k]] *)
Definition inherited (k : string) : proto_lookup :=
  if String.eqb k "__proto__" then ProtoAccessor
  else match find (fun c => String.eqb k (copyable_name c)) all_copyable with
       | Some c => FromPrototype c
       | None => NoSuch
       end.

(** The own key [c] comes to hold the inherited function. *)
Definition copy_down (c : copyable) (l : list copyable) : list copyable :=
  if existsb (fun c' => String.eqb (copyable_name c) (copyable_name c')) l
  then l else l ++ [c].

Inductive level : Type := LDebug | LInfo | LWarn | LError.

Record entry : Type := {
  lvl : level;
  parts : list string
}.

(** The [Plugins] instance ([pluginObjs], [assertions], [resultsReported])
    together with what it does to its surroundings: the lines handed to the
    logger and the hook invocations performed, oldest first.  The own
    properties of the [assertions] object are the arrays of [assertions]
    and the inherited functions copied down, [copied]. *)
Record state : Type := {
  pluginObjs : list ProtractorPlugin;
  assertions : store;
  copied : list copyable;
  resultsReported : bool;
  logged : list entry;
  invoked : list (ProtractorPlugin * string * list value)
}.

Definition set_assertions (a : store) (st : state) : state :=
  {| pluginObjs := pluginObjs st; assertions := a; copied := copied st;
     resultsReported := resultsReported st; logged := logged st;
     invoked := invoked st |}.

Definition set_copied (l : list copyable) (st : state) : state :=
  {| pluginObjs := pluginObjs st; assertions := assertions st; copied := l;
     resultsReported := resultsReported st; logged := logged st;
     invoked := invoked st |}.

Definition set_resultsReported (b : bool) (st : state) : state :=
  {| pluginObjs := pluginObjs st; assertions := assertions st;
     copied := copied st;
     resultsReported := b; logged := logged st; invoked := invoked st |}.

Definition set_logged (l : list entry) (st : state) : state :=
  {| pluginObjs := pluginObjs st; assertions := assertions st;
     copied := copied st;
     resultsReported := resultsReported st; logged := l;
     invoked := invoked st |}.

Definition set_invoked (l : list (ProtractorPlugin * string * list value))
    (st : state) : state :=
  {| pluginObjs := pluginObjs st; assertions := assertions st;
     copied := copied st;
     resultsReported := resultsReported st; logged := logged st;
     invoked := l |}.

(** ** Statements that may throw *)

Inductive completion (A : Type) : Type :=
| Normal (a : A)
| Thrown (e : value).
Arguments Normal {A} a.
Arguments Thrown {A} e.

(** A statement runs on the state and completes normally or by a throw; what
    it wrote before throwing stays written. *)
Definition M (A : Type) : Type := state -> completion A * state.

Definition ret {A} (a : A) : M A := fun st => (Normal a, st).
Definition throw {A} (e : value) : M A := fun st => (Thrown e, st).

Definition bind {A B} (c : M A) (k : A -> M B) : M B :=
  fun st =>
    match c st with
    | (Normal a, st') => k a st'
    | (Thrown e, st') => (Thrown e, st')
    end.

Notation "'do' x <- c ; k" := (bind c (fun x => k))
  (at level 10, x name, c at level 100, k at level 200).
Notation "c ;; k" := (bind c (fun _ => k))
  (at level 100, k at level 200, right associativity).

Definition get : M state := fun st => (Normal st, st).
Definition modify (f : state -> state) : M unit := fun st => (Normal tt, f st).

(** [try { c } catch (e) { h e }] *)
Definition try_catch {A} (c : M A) (h : value -> M A) : M A :=
  fun st =>
    match c st with
    | (Normal a, st') => (Normal a, st')
    | (Thrown e, st') => h e st'
    end.

(** The logger of ['./logger']: one entry per call. *)
Definition logger (l : level) (ps : list string) : M unit :=
  modify (fun st => set_logged (logged st ++ [{| lvl := l; parts := ps |}]) st).

(** ** The assertion store *)

Fixpoint lookup_spec (k : string) (s : store) : option (list assertion) :=
  match s with
  | [] => None
  | (k', l) :: s' => if String.eqb k k' then Some l else lookup_spec k s'
  end.

(** [this.assertions[specName] = this.assertions[specName] || [];
     this.assertions[specName].push(assertion)], where [specName] holds an
    own array or nothing at all; the names that [Object.prototype] has are
    told apart in [addAssertion]. *)
Fixpoint push_assertion (k : string) (a : assertion) (s : store) : store :=
  match s with
  | [] => [(k, [a])]
  | (k', l) :: s' =>
      if String.eqb k k' then (k', l ++ [a]) :: s'
      else (k', l) :: push_assertion k a s'
  end.

Definition already_reported : string :=
  "Cannot add new tests results, since they were already reported.".

(** The record [addAssertion] builds. *)
Definition mk_assertion (i : info) (pass : bool) (message : value) : assertion :=
  {| passed := pass;
     errorMsg := if pass then None else Some message;
     stackTrace :=
       if pass then None
       else if truthy_s (info_stackTrace i) then Some (info_stackTrace i)
       else None |}.

Definition not_a_function (what : string) : value :=
  TypeError (what +:+ " is not a function").

(** Lines 104 and 105.  When [this.assertions[specName]] is an own array,
    or nothing at all, the record ends up at the end of the array under
    [specName].  When it is a function inherited from [Object.prototype],
    line 104 copies the function down as an own property and the [push] of
    line 105, which a function does not have, throws; under [__proto__]
    nothing is copied and the [push] throws as well. *)
Definition addAssertion (obj : ProtractorPlugin) (i : option info)
    (pass : bool) (message : value) : M unit :=
  do st <- get;
  if resultsReported st then throw (Error_ already_reported)
  else
    let i := default no_info i in
    let specName := or_str (specName i)
                      (ostring_to_string (name obj) +:+ " Plugin Tests") in
    let assertion := mk_assertion i pass message in
    let push :=
      modify (fun st => set_assertions
                          (push_assertion specName assertion (assertions st))
                          st) in
    match lookup_spec specName (assertions st) with
    | Some _ => push
    | None =>
        match inherited specName with
        | NoSuch => push
        | FromPrototype c =>
            modify (fun st => set_copied (copy_down c (copied st)) st) ;;
            throw (not_a_function "this.assertions[specName].push")
        | ProtoAccessor =>
            throw (not_a_function "this.assertions[specName].push")
        end
    end.

(** ** The capabilities installed by [annotatePluginObj] *)

Definition addFailure (obj : ProtractorPlugin) (message : value)
    (i : option info) : M unit :=
  addAssertion obj i false message.

Definition addSuccess (obj : ProtractorPlugin) (options : option info) : M unit :=
  addAssertion obj options true VUndefined.

Definition addWarning (obj : ProtractorPlugin) (message : value)
    (options : option info) : M unit :=
  let options := default no_info options in
  logger LWarn
    ["Warning " +:+
     (if truthy_s (specName options)
      then "in " +:+ ostring_to_string (specName options)
      else "from " +:+ dquote +:+ ostring_to_string (name obj) +:+ dquote +:+
           " plugin") +:+
     ": " +:+ to_string message].

(** ** [annotatePluginObj] *)

(** [obj.name || conf.name || conf.path || conf.package || ('Plugin #' + i)] *)
Definition assigned_name (obj : ProtractorPlugin) (conf : PluginConfig)
    (i : nat) : string :=
  or_str (oor (oor (oor (name obj) (conf_name conf)) (path conf)) (package conf))
         ("Plugin #" +:+ pretty i).

Definition annotatePluginObj (obj : ProtractorPlugin) (conf : PluginConfig)
    (i : nat) : ProtractorPlugin :=
  {| skipAngularStability := skipAngularStability obj;
     name := Some (assigned_name obj conf i);
     config := Some conf;
     hooks := hooks obj |}.

(** ** [printPluginResults] *)

Definition esc : Ascii.ascii := Ascii.ascii_of_nat 27.
Definition nl : Ascii.ascii := Ascii.ascii_of_nat 10.
Definition tab : string := String (Ascii.ascii_of_nat 9) EmptyString.

Definition green : string := String esc "[32m".
Definition red : string := String esc "[31m".
Definition normalColor : string := String esc "[39m".

Definition printResult (message : string) (pass : bool) : M unit :=
  logger LInfo [if pass then green else red; tab;
                if pass then "Pass: " else "Fail: "; message; normalColor].

(** [s.replace(/\n/g, '\n\t\t')] *)
Fixpoint indent_lines (s : string) : string :=
  match s with
  | EmptyString => EmptyString
  | String c s' =>
      if Ascii.eqb c nl then String nl (tab +:+ tab +:+ indent_lines s')
      else String c (indent_lines s')
  end.

Fixpoint forEach {A} (f : A -> M unit) (l : list A) : M unit :=
  match l with
  | [] => ret tt
  | x :: l' => f x ;; forEach f l'
  end.

Definition print_assertion (a : assertion) : M unit :=
  if negb (passed a) then
    logger LError [tab +:+ tab +:+ to_string (default VUndefined (errorMsg a))] ;;
    match stackTrace a with
    | Some (Some s) =>
        if truthy (VStr s) then logger LError [tab +:+ tab +:+ indent_lines s]
        else ret tt
    | _ => ret tt
    end
  else ret tt.

Definition print_spec (specResult : specResult) : M unit :=
  let passed :=
    fold_left andb (map passed (assertions_of specResult)) true in
  printResult (description specResult) passed ;;
  if negb passed then forEach print_assertion (assertions_of specResult)
  else ret tt.

Definition printPluginResults (specResults : list specResult) : M unit :=
  forEach print_spec specResults.

(** ** [getResults] *)

Definition not_passed (a : assertion) : bool := negb (passed a).

(** One turn of the [for (var specName in this.assertions)] loop. *)
Definition collect_spec (r : results) (kv : string * list assertion) : results :=
  {| failedCount := failedCount r + length (List.filter not_passed (snd kv));
     specResults := specResults r ++
                    [{| description := fst kv; assertions_of := snd kv |}] |}.

Definition collect (s : store) : results :=
  fold_left collect_spec s {| failedCount := 0; specResults := [] |}.

(** The order in which [for (var specName in ...)] visits own keys: those
    that are array indices (canonical decimal numerals below [2^32 - 1]) in
    ascending numeric order, then the others in creation order. *)
Definition is_digit (c : Ascii.ascii) : bool :=
  Nat.leb 48 (Ascii.nat_of_ascii c) && Nat.leb (Ascii.nat_of_ascii c) 57.

Fixpoint digits_value (s : string) (acc : N) : option N :=
  match s with
  | EmptyString => Some acc
  | String c s' =>
      if is_digit c
      then digits_value s' (acc * 10 + N.of_nat (Ascii.nat_of_ascii c - 48))%N
      else None
  end.

Definition array_index (k : string) : option N :=
  match k with
  | EmptyString => None
  | String c rest =>
      if Ascii.eqb c (Ascii.ascii_of_nat 48) &&
         negb (String.eqb rest EmptyString)
      then None
      else match digits_value k 0 with
           | Some n => if (n <? 4294967295)%N then Some n else None
           | None => None
           end
  end.

Fixpoint insert_by_index (n : N) (kv : string * list assertion)
    (l : list (N * (string * list assertion)))
    : list (N * (string * list assertion)) :=
  match l with
  | [] => [(n, kv)]
  | (n', kv') :: l' =>
      if (n <? n')%N then (n, kv) :: l
      else (n', kv') :: insert_by_index n kv l'
  end.

Fixpoint index_entries (s : store) : list (N * (string * list assertion)) :=
  match s with
  | [] => []
  | kv :: s' =>
      match array_index (fst kv) with
      | Some n => insert_by_index n kv (index_entries s')
      | None => index_entries s'
      end
  end.

Definition named_entries (s : store) : store :=
  List.filter (fun kv => match array_index (fst kv) with
                         | Some _ => false
                         | None => true
                         end) s.

Definition for_in (s : store) : store :=
  map snd (index_entries s) ++ named_entries s.

(** When an own key holds a copied function, the loop reaches it and the
    call of its [filter], which a function does not have, throws: so far
    only the local [results] has been written, nothing is printed and the
    flag is not set. *)
Definition getResults : M results :=
  do st <- get;
  match copied st with
  | [] =>
      let results := collect (for_in (assertions st)) in
      printPluginResults (specResults results) ;;
      modify (set_resultsReported true) ;;
      ret results
  | _ :: _ => throw (not_a_function "this.assertions[specName].filter")
  end.

(** ** [skipAngularStability] *)

Definition skipAngularStability_any (st : state) : bool :=
  fold_left (fun skip pluginObj => skipAngularStability pluginObj || skip)
            (pluginObjs st) false.

(** ** [safeCallPluginFun] *)

(** Reading [e.message] and [e.stack]: a [TypeError] on [undefined] and
    [null], [undefined] on the other primitives. *)
Definition cannot_read (prop : string) (e : value) : value :=
  TypeError ("Cannot read property '" +:+ prop +:+ "' of " +:+ to_string e).

Definition get_message (e : value) : M ostring :=
  match e with
  | VUndefined | VNull =>
      throw (cannot_read "message" e)
  | VObj m _ _ => ret m
  | _ => ret None
  end.

Definition get_stack (e : value) : M ostring :=
  match e with
  | VUndefined | VNull =>
      throw (cannot_read "stack" e)
  | VObj _ s _ => ret s
  | _ => ret None
  end.

(** The deferred of one isolated call.  [Resolved v]: [deferred.fulfill(v)]
    has run.  [Waiting]: the deferred is pending and the two callbacks are
    registered on the awaitable the hook returned, which will reach
    [eventual].  [Dropped]: the rejection callback threw before fulfilling
    the deferred, so nothing will ever settle it. *)
Inductive deferred : Type :=
| Resolved (v : value)
| Waiting (pluginObj : ProtractorPlugin) (funName : string)
          (failReturnVal : value) (eventual : promise value)
| Dropped.

(** [deferred.promise], as an observer sees it. *)
Definition promise_of (d : deferred) : promise value :=
  match d with
  | Resolved v => Fulfilled v
  | _ => Pending
  end.

(** The closure [logError]; it ends with [deferred.fulfill(failReturnVal)]. *)
Definition logError (pluginObj : ProtractorPlugin) (funName : string)
    (failReturnVal : value) (e : value) : M deferred :=
  do st <- get;
  (if resultsReported st then
     let description := ostring_to_string (name pluginObj) +:+ " Runtime" in
     do m <- get_message e;
     let errorMsg :=
       "Failure during " +:+ funName +:+ ": " +:+
       to_string (js_or (of_ostring m) e) in
     do s <- get_stack e;
     printPluginResults
       [{| description := description;
           assertions_of := [{| passed := false;
                                errorMsg := Some (VStr errorMsg);
                                stackTrace := Some s |}] |}]
   else
     do m <- get_message e;
     let message :=
       js_or (VStr ("Failure during " +:+ funName +:+ ": " +:+
                    ostring_to_string m)) e in
     do s <- get_stack e;
     addFailure pluginObj message
                (Some {| specName := None; info_stackTrace := s |})) ;;
  ret (Resolved failReturnVal).

(** [pluginObj[funName].apply(pluginObj, args)] *)
Definition invoke (pluginObj : ProtractorPlugin) (funName : string)
    (args : list value) : M (value + promise value) :=
  match hooks pluginObj funName with
  | None => throw (cannot_read "apply" VUndefined)
  | Some h =>
      modify (fun st => set_invoked
                          (invoked st ++ [(pluginObj, funName, args)]) st) ;;
      match h args with
      | Returns v => ret (inl v)
      | ReturnsPromise p => ret (inr p)
      | Throws e => throw e
      end
  end.

(** [promiseType] selects the library the deferred comes from; a deferred of
    either library is fulfilled at most once and this code never rejects
    one. *)
Definition safeCallPluginFun (pluginObj : ProtractorPlugin) (funName : string)
    (args : list value) (promiseType : PromiseType) (failReturnVal : value)
    : M deferred :=
  try_catch
    (do result <- invoke pluginObj funName args;
     match result with
     | inr eventual =>
         ret (Waiting pluginObj funName failReturnVal eventual)
     | inl v => ret (Resolved v)
     end)
    (fun e => logError pluginObj funName failReturnVal e).

(** The awaitable returned by the hook settles: the callback registered for
    that case runs.  A throw out of the rejection callback leaves the
    deferred unsettled for good, whichever library made the awaitable; what
    that library does with the error besides (Q drops it, a WebDriver
    awaitable reports it to its control flow as uncaught) is outside the
    manager and not part of the state here. *)
Definition hookSettled (d : deferred) : M deferred :=
  match d with
  | Waiting pluginObj funName failReturnVal (Fulfilled v) => ret (Resolved v)
  | Waiting pluginObj funName failReturnVal (Rejected e) =>
      try_catch (logError pluginObj funName failReturnVal e)
                (fun _ => ret Dropped)
  | _ => ret d
  end.

(** ** [pluginFunFactory] *)

(** [q.all] and [webdriver.promise.all]: fulfilled with the values, in the
    order of the array, once every member is fulfilled; rejected when a
    member is. *)
Fixpoint promise_all (ps : list (promise value)) : promise (list value) :=
  match ps with
  | [] => Fulfilled []
  | p :: ps' =>
      match p, promise_all ps' with
      | Rejected e, _ => Rejected e
      | _, Rejected e => Rejected e
      | Fulfilled v, Fulfilled vs => Fulfilled (v :: vs)
      | _, _ => Pending
      end
  end.

Definition combined (promises : list deferred) : promise (list value) :=
  promise_all (map promise_of promises).

(** The body of [self.pluginObjs.forEach(...)], accumulating [promises]. *)
Fixpoint call_each (objs : list ProtractorPlugin) (funName : string)
    (args : list value) (promiseType : PromiseType) (failReturnVal : value)
    (promises : list deferred) : M (list deferred) :=
  match objs with
  | [] => ret promises
  | pluginObj :: objs' =>
      match hooks pluginObj funName with
      | Some _ =>
          do p <- safeCallPluginFun pluginObj funName args promiseType
                                    failReturnVal;
          call_each objs' funName args promiseType failReturnVal
                    (promises ++ [p])
      | None =>
          call_each objs' funName args promiseType failReturnVal promises
      end
  end.

(** The generated handler returns the awaitable [combined promises]. *)
Definition pluginFunFactory (funName : string) (promiseType : PromiseType)
    (failReturnVal : value) (args : list value) : M (list deferred) :=
  do self <- get;
  call_each (pluginObjs self) funName args promiseType failReturnVal [].

Definition setup := pluginFunFactory "setup" Q VUndefined.
Definition teardown := pluginFunFactory "teardown" Q VUndefined.
Definition postResults := pluginFunFactory "postResults" Q VUndefined.
Definition postTest := pluginFunFactory "postTest" Q VUndefined.
Definition onPageLoad := pluginFunFactory "onPageLoad" WEBDRIVER VUndefined.
Definition onPageStable := pluginFunFactory "onPageStable" WEBDRIVER VUndefined.
Definition waitForPromise :=
  pluginFunFactory "waitForPromise" WEBDRIVER VUndefined.
Definition waitForCondition :=
  pluginFunFactory "waitForCondition" WEBDRIVER (VBool true).

(** ** Completions over time *)

(** The awaitable behind entry [i] of [promises] settles. *)
Definition settle (i : nat) (promises : list deferred) : M (list deferred) :=
  match promises !! i with
  | Some d => do d' <- hookSettled d; ret (<[i := d']> promises)
  | None => ret promises
  end.

(** The awaitables settle in the order [order]. *)
Fixpoint settle_in (order : list nat) (promises : list deferred)
    : M (list deferred) :=
  match order with
  | [] => ret promises
  | i :: order' => do ps <- settle i promises; settle_in order' ps
  end.

(** ** Runs of the manager *)

(** What the runner and the plugins can make the manager do. *)
Inductive action : Type :=
| CallAddFailure (obj : ProtractorPlugin) (message : value) (i : option info)
| CallAddSuccess (obj : ProtractorPlugin) (options : option info)
| CallAddWarning (obj : ProtractorPlugin) (message : value)
                 (options : option info)
| CallGetResults
| CallSafe (obj : ProtractorPlugin) (funName : string) (args : list value)
           (promiseType : PromiseType) (failReturnVal : value)
| CallDispatch (funName : string) (promiseType : PromiseType)
               (failReturnVal : value) (args : list value)
| Settles (d : deferred).

(** The state an action leaves behind, whether it returned or threw. *)
Definition exec (a : action) (st : state) : state :=
  match a with
  | CallAddFailure obj m i => snd (addFailure obj m i st)
  | CallAddSuccess obj o => snd (addSuccess obj o st)
  | CallAddWarning obj m o => snd (addWarning obj m o st)
  | CallGetResults => snd (getResults st)
  | CallSafe obj f args pt fv => snd (safeCallPluginFun obj f args pt fv st)
  | CallDispatch f pt fv args => snd (pluginFunFactory f pt fv args st)
  | Settles d => snd (hookSettled d st)
  end.

Definition run_actions (acts : list action) (st : state) : state :=
  fold_left (fun st a => exec a st) acts st.

(** The fields as the constructor initialises them, with [objs] as the
    loaded plugins; the log and the trace of invocations start empty. *)
Definition initial (objs : list ProtractorPlugin) : state :=
  {| pluginObjs := objs; assertions := []; copied := [];
     resultsReported := false;
     logged := []; invoked := [] |}.

(** One dispatch seen over time: the awaitable behind an entry of its
    [promises] settles, or the manager is used in between. *)
Inductive event : Type :=
| Completes (i : nat)
| Does (a : action).

Definition play_event (ev : event) (w : list deferred * state)
    : list deferred * state :=
  match ev with
  | Completes i =>
      match settle i (fst w) (snd w) with
      | (Normal ps, st) => (ps, st)
      | (Thrown _, st) => (fst w, st)
      end
  | Does a => (fst w, exec a (snd w))
  end.

Definition play (evs : list event) (promises : list deferred) (st : state)
    : list deferred * state :=
  fold_left (fun w ev => play_event ev w) evs (promises, st).

(** Every one of the first [n] awaitables gets its turn. *)
Definition covers (evs : list event) (n : nat) : Prop :=
  forall i, i < n -> In (Completes i) evs.

(** ** The properties, in the words of the specification *)

(** The number of records, over all spec names, that did not pass. *)
Fixpoint count_failed (l : list assertion) : nat :=
  match l with
  | [] => 0
  | {| passed := false |} :: l' => S (count_failed l')
  | {| passed := true |} :: l' => count_failed l'
  end.

Fixpoint total_failed (s : store) : nat :=
  match s with
  | [] => 0
  | (_, l) :: s' => count_failed l + total_failed s'
  end.

(** The first non-empty candidate of a priority list. *)
Fixpoint first_non_empty (candidates : list ostring) : ostring :=
  match candidates with
  | [] => None
  | c :: rest => if truthy_s c then c else first_non_empty rest
  end.

Definition defines (funName : string) (obj : ProtractorPlugin) : bool :=
  match hooks obj funName with
  | Some _ => true
  | None => false
  end.

(** Property access fails on these two values only. *)
Definition nullish (v : value) : bool :=
  match v with
  | VUndefined | VNull => true
  | _ => false
  end.

(** The result a plugin contributes to a dispatch: what its hook returns or
    resolves to, and the fail value when the hook fails. *)
Definition result_of (funName : string) (args : list value)
    (failReturnVal : value) (obj : ProtractorPlugin) : value :=
  match hooks obj funName with
  | Some h =>
      match h args with
      | Returns v => v
      | ReturnsPromise (Fulfilled v) => v
      | ReturnsPromise (Rejected _) => failReturnVal
      | ReturnsPromise Pending => VUndefined
      | Throws _ => failReturnVal
      end
  | None => VUndefined
  end.

(** The hook comes to an end that the isolation layer can record. *)
Definition finishes (funName : string) (args : list value)
    (obj : ProtractorPlugin) : bool :=
  match hooks obj funName with
  | Some h =>
      match h args with
      | Returns _ => true
      | ReturnsPromise (Fulfilled _) => true
      | ReturnsPromise (Rejected e) => negb (nullish e)
      | ReturnsPromise Pending => false
      | Throws e => negb (nullish e)
      end
  | None => true
  end.

Definition all_records (s : store) : list assertion := concat (map snd s).

(** The shape of a stored record. *)
Definition well_shaped (a : assertion) : Prop :=
  if passed a
  then errorMsg a = None /\ stackTrace a = None
  else errorMsg a <> None /\
       (stackTrace a = None \/
        exists s, stackTrace a = Some (Some s) /\ s <> EmptyString).

(** A dispatch point whose throwing hooks contribute [failReturnVal]: in any
    array the combined awaitable is fulfilled with, the entry of a plugin
    whose hook threw is [failReturnVal]; and when every hook comes to an end
    the dispatch returns and the combined awaitable is fulfilled with such
    an array once all awaitables have settled. *)
Definition fails_with (point : list value -> M (list deferred))
    (funName : string) (failReturnVal : value) : Prop :=
  forall st args i obj h e,
    let defining := List.filter (defines funName) (pluginObjs st) in
    defining !! i = Some obj ->
    hooks obj funName = Some h ->
    h args = Throws e ->
    (forall promises st' evs st1 arr,
        point args st = (Normal promises, st') ->
        combined (fst (play evs promises st1)) = Fulfilled arr ->
        arr !! i = Some failReturnVal) /\
    (forallb (finishes funName args) defining = true ->
     exists promises st',
       point args st = (Normal promises, st') /\
       forall evs st1,
         covers evs (length promises) ->
         exists arr,
           combined (fst (play evs promises st1)) = Fulfilled arr /\
           arr !! i = Some failReturnVal).

(** ** Sample plugins *)

Definition plugin_with (nm : string) (funName : string) (h : hook)
    : ProtractorPlugin :=
  {| skipAngularStability := false;
     name := Some nm;
     config := None;
     hooks := fun f => if String.eqb f funName then Some h else None |}.

Definition boom : value := Error_ "boom".

(** Plugin ["A"] with a [setup] hook that throws [e], and one whose [setup]
    returns an awaitable that is rejected with [e]. *)
Definition thrower (e : value) : ProtractorPlugin :=
  plugin_with "A" "setup" (fun _ => Throws e).

Definition rejecter (e : value) : ProtractorPlugin :=
  plugin_with "A" "setup" (fun _ => ReturnsPromise (Rejected e)).

(** Three plugins, the second without a [setup] hook. *)
Definition three_plugins : list ProtractorPlugin :=
  [plugin_with "first" "setup" (fun _ => ReturnsPromise (Fulfilled (VNum "1" true)));
   plugin_with "second" "teardown" (fun _ => Returns VNull);
   plugin_with "third" "setup" (fun _ => ReturnsPromise (Rejected boom))].

(** ** Closed forms *)

(** What reading [e.message] and [e.stack] gives where it gives anything. *)
Definition message_of (e : value) : ostring :=
  match e with
  | VObj m _ _ => m
  | _ => None
  end.

Definition stack_of (e : value) : ostring :=
  match e with
  | VObj _ s _ => s
  | _ => None
  end.

(** The record [logError] stores for the cause [e] before the report. *)
Definition failure_record (funName : string) (e : value) : assertion :=
  {| passed := false;
     errorMsg := Some (VStr ("Failure during " +:+ funName +:+ ": " +:+
                             ostring_to_string (message_of e)));
     stackTrace := if truthy_s (stack_of e) then Some (stack_of e) else None |}.

(** How [safeCallPluginFun] completes. *)
Definition started (obj : ProtractorPlugin) (funName : string)
    (args : list value) (failReturnVal : value) : completion deferred :=
  match hooks obj funName with
  | None => Normal (Resolved failReturnVal)
  | Some h =>
      match h args with
      | Returns v => Normal (Resolved v)
      | ReturnsPromise eventual =>
          Normal (Waiting obj funName failReturnVal eventual)
      | Throws e =>
          if nullish e then Thrown (cannot_read "message" e)
          else Normal (Resolved failReturnVal)
      end
  end.

Definition first_form (obj : ProtractorPlugin) (funName : string)
    (args : list value) (failReturnVal : value) : deferred :=
  match started obj funName args failReturnVal with
  | Normal d => d
  | Thrown _ => Dropped
  end.

(** What [hookSettled] returns. *)
Definition settled_form (d : deferred) : deferred :=
  match d with
  | Waiting _ _ failReturnVal (Fulfilled v) => Resolved v
  | Waiting _ _ failReturnVal (Rejected e) =>
      if nullish e then Dropped else Resolved failReturnVal
  | _ => d
  end.

(** What an event does to the array of deferreds. *)
Definition turn (promises : list deferred) (ev : event) : list deferred :=
  match ev with
  | Completes i =>
      match promises !! i with
      | Some d => <[i := settled_form d]> promises
      | None => promises
      end
  | Does _ => promises
  end.

(** ** The constructor *)

(** One element of [config.plugins]: the [PluginConfig] members above
    together with its [inline] member. *)
Record PluginEntry : Type := {
  entry_conf : PluginConfig;
  inline : option ProtractorPlugin
}.

(** The members of [config] the constructor reads. *)
Record Config : Type := {
  plugins : option (list PluginEntry);
  configDir : ostring
}.

Definition set_pluginObjs (l : list ProtractorPlugin) (st : state) : state :=
  {| pluginObjs := l; assertions := assertions st; copied := copied st;
     resultsReported := resultsReported st; logged := logged st;
     invoked := invoked st |}.

Definition no_source : string :=
  "Plugin configuration did not contain a valid path or inline definition.".

Definition lift {A} (c : completion A) : M A := fun st => (c, st).

Section Loading.

(** [ConfigParser.resolveFilePatterns(patterns, omitWarnings, relativeTo)]
    and [require], which may throw.  Each entry is taken to yield an object
    of its own; an object shared by two entries would be annotated twice. *)
Variable resolveFilePatterns : string -> bool -> ostring -> list string.
Variable require : string -> completion ProtractorPlugin.

(** The first [if] of the loop body: the value [path] ends up with. *)
Definition resolve_path (config : Config) (pluginConf : PluginConfig)
    : M ostring :=
  match path pluginConf with
  | Some p =>
      if truthy_s (Some p) then
        let resolved :=
          head (resolveFilePatterns p true (configDir config)) in
        if truthy_s resolved then ret resolved
        else throw (Error_ ("Invalid path to plugin: " +:+ p))
      else ret (package pluginConf)
  | None => ret (package pluginConf)
  end.

Definition from_inline (pluginConf : PluginEntry) : M ProtractorPlugin :=
  match inline pluginConf with
  | Some obj => ret obj
  | None => throw (Error_ no_source)
  end.

(** The second [if]: the object [pluginObj] ends up with. *)
Definition resolve_obj (resolved : ostring) (pluginConf : PluginEntry)
    : M ProtractorPlugin :=
  match resolved with
  | Some p =>
      if truthy_s resolved then lift (require p) else from_inline pluginConf
  | None => from_inline pluginConf
  end.

(** The body of [pluginConfs.forEach]. *)
Definition load (config : Config) (i : nat) (pluginConf : PluginEntry)
    : M unit :=
  do resolved <- resolve_path config (entry_conf pluginConf);
  do pluginObj <- resolve_obj resolved pluginConf;
  let pluginObj := annotatePluginObj pluginObj (entry_conf pluginConf) i in
  logger LDebug ["Plugin " +:+ dquote +:+
                 ostring_to_string (name pluginObj) +:+ dquote +:+
                 " loaded."] ;;
  modify (fun st => set_pluginObjs (pluginObjs st ++ [pluginObj]) st).

Fixpoint load_from (config : Config) (i : nat)
    (pluginConfs : list PluginEntry) : M unit :=
  match pluginConfs with
  | [] => ret tt
  | pluginConf :: rest =>
      load config i pluginConf ;; load_from config (S i) rest
  end.

(** [new Plugins(config)]: the fields are initialised, then the entries of
    [config.plugins || []] are loaded in order. *)
Definition new_Plugins (config : Config) : completion unit * state :=
  load_from config 0 (default [] (plugins config)) (initial []).

(** The object an entry stands for: the module at the first resolved path
    when [path] is set, else the module [package] names, else the [inline]
    object. *)
Definition source_of (config : Config) (pluginConf : PluginEntry)
    : completion ProtractorPlugin :=
  if truthy_s (path (entry_conf pluginConf)) then
    match head (resolveFilePatterns
                  (ostring_to_string (path (entry_conf pluginConf))) true
                  (configDir config)) with
    | Some r =>
        if truthy_s (Some r) then require r
        else Thrown (Error_ ("Invalid path to plugin: " +:+
                             ostring_to_string (path (entry_conf pluginConf))))
    | None =>
        Thrown (Error_ ("Invalid path to plugin: " +:+
                        ostring_to_string (path (entry_conf pluginConf))))
    end
  else if truthy_s (package (entry_conf pluginConf)) then
    require (ostring_to_string (package (entry_conf pluginConf)))
  else
    match inline pluginConf with
    | Some obj => Normal obj
    | None => Thrown (Error_ no_source)
    end.

(** The plugin at position [i] was loaded for the entry [pluginConf]. *)
Definition loaded_for (config : Config) (i : nat) (pluginConf : PluginEntry)
    (obj : ProtractorPlugin) : Prop :=
  exists src,
    source_of config pluginConf = Normal src /\
    obj = annotatePluginObj src (entry_conf pluginConf) i.

End Loading.

(** ** Further properties, in words *)

(** Every array of [s] is still there in [s'], possibly with records
    appended. *)
Definition grown_from (s s' : store) : Prop :=
  forall k l, lookup_spec k s = Some l ->
              exists l', lookup_spec k s' = Some (l ++ l').

Definition spec_of (kv : string * list assertion) : specResult :=
  {| description := fst kv; assertions_of := snd kv |}.

Definition is_getResults (a : action) : bool :=
  match a with
  | CallGetResults => true
  | _ => false
  end.

(** The entry has something to load: a path, a package or an inline
    object. *)
Definition has_source (pluginConf : PluginEntry) : bool :=
  truthy_s (path (entry_conf pluginConf)) ||
  truthy_s (package (entry_conf pluginConf)) ||
  match inline pluginConf with Some _ => true | None => false end.

(** [s.split('\n')] *)
Fixpoint split_lines (s : string) : list string :=
  match s with
  | EmptyString => [EmptyString]
  | String c s' =>
      if Ascii.eqb c nl then EmptyString :: split_lines s'
      else match split_lines s' with
           | l :: ls => String c l :: ls
           | [] => [String c EmptyString]
           end
  end.

(** The lines of [s], each but the first behind two tabs. *)
Definition indented (s : string) : string :=
  String.concat (String nl (tab +:+ tab)) (split_lines s).

(** The lines written for one failed record: the message, then the stack
    trace when it is a non-empty string. *)
Definition failure_lines (a : assertion) : list entry :=
  {| lvl := LError;
     parts := [tab +:+ tab +:+ match errorMsg a with
                               | Some m => to_string m
                               | None => "undefined"
                               end] |}
  :: match stackTrace a with
     | Some (Some (String c s)) =>
         [{| lvl := LError;
             parts := [tab +:+ tab +:+ indented (String c s)] |}]
     | _ => []
     end.

Fixpoint records_lines (l : list assertion) : list entry :=
  match l with
  | [] => []
  | {| passed := true |} :: l' => records_lines l'
  | a :: l' => failure_lines a ++ records_lines l'
  end.

(** The lines written for one spec: the verdict, then the failed records
    in order. *)
Definition spec_lines (sr : specResult) : list entry :=
  if forallb passed (assertions_of sr)
  then [{| lvl := LInfo;
           parts := [green; tab; "Pass: "; description sr; normalColor] |}]
  else {| lvl := LInfo;
          parts := [red; tab; "Fail: "; description sr; normalColor] |}
       :: records_lines (assertions_of sr).

(** The cause as a failure message names it: its message when it has a
    non-empty one, else the cause itself. *)
Definition cause_text (e : value) : string :=
  match e with
  | VObj (Some (String c m)) _ _ => String c m
  | _ => to_string e
  end.

(** The one-off report of a hook failure after the results are reported. *)
Definition runtime_lines (obj : ProtractorPlugin) (funName : string)
    (e : value) : list entry :=
  [{| lvl := LInfo;
      parts := [red; tab; "Fail: ";
                ostring_to_string (name obj) +:+ " Runtime"; normalColor] |};
   {| lvl := LError;
      parts := [tab +:+ tab +:+ "Failure during " +:+ funName +:+ ": " +:+
                cause_text e] |}]
  ++ match e with
     | VObj _ (Some (String c s)) _ =>
         [{| lvl := LError;
             parts := [tab +:+ tab +:+ indented (String c s)] |}]
     | _ => []
     end.

(** Own keys that are array indices, compared as numbers. *)
Definition is_index (k : string) : bool :=
  match array_index k with
  | Some _ => true
  | None => false
  end.

Definition index_le (k1 k2 : string) : Prop :=
  match array_index k1, array_index k2 with
  | Some m, Some n => (m <= n)%N
  | _, _ => False
  end.

(** The key a capability call writes under. *)
Definition spec_key (obj : ProtractorPlugin) (i : option info) : string :=
  or_str (specName (default no_info i))
         (ostring_to_string (name obj) +:+ " Plugin Tests").

(** The [assertions] object takes a record under [k]: [k] holds an array
    already, or [Object.prototype] has nothing of that name. *)
Definition accepts (k : string) (s : store) : bool :=
  match lookup_spec k s with
  | Some _ => true
  | None => match inherited k with NoSuch => true | _ => false end
  end.

Fixpoint has_space (s : string) : bool :=
  match s with
  | EmptyString => false
  | String c s' => Ascii.eqb c (Ascii.ascii_of_nat 32) || has_space s'
  end.

(** ** Reasoning about statements *)

(** [c] keeps the property [P] of the state, however it completes. *)
Definition preserves {A} (P : state -> Prop) (c : M A) : Prop :=
  forall st, P st -> P (snd (c st)).

(** [c] returns and does nothing but hand lines to the logger. *)
Definition only_logs (c : M unit) : Prop :=
  forall st, exists l, c st = (Normal tt, set_logged (logged st ++ l) st).

Definition store_ok (st : state) : Prop :=
  Forall well_shaped (all_records (assertions st)).

Definition reported (st : state) : Prop := resultsReported st = true.

(* ================================================================== *)
(** * Proofs *)

(** ** The state record *)

Lemma set_logged_twice l1 l2 st :
  set_logged l2 (set_logged l1 st) = set_logged l2 st.
Proof. reflexivity. Qed.

Lemma set_logged_same st : set_logged (logged st) st = st.
Proof. destruct st; reflexivity. Qed.

(** ** Statements that only log *)

Lemma only_logs_ret : only_logs (ret tt).
Proof.
  intros st. exists []. unfold ret. rewrite app_nil_r, set_logged_same.
  reflexivity.
Qed.

Lemma only_logs_logger l ps : only_logs (logger l ps).
Proof. intros st. eexists. reflexivity. Qed.

Lemma only_logs_seq (c k : M unit) :
  only_logs c -> only_logs k -> only_logs (c ;; k).
Proof.
  intros Hc Hk st. unfold bind.
  destruct (Hc st) as [l1 ->].
  destruct (Hk (set_logged (logged st ++ l1) st)) as [l2 ->].
  exists (l1 ++ l2). cbn. rewrite app_assoc. reflexivity.
Qed.

Lemma only_logs_forEach {A} (f : A -> M unit) (l : list A) :
  (forall x, only_logs (f x)) -> only_logs (forEach f l).
Proof.
  intros Hf. induction l as [|x l IH]; cbn [forEach].
  - apply only_logs_ret.
  - apply only_logs_seq; [apply Hf | exact IH].
Qed.

Lemma only_logs_print_assertion a : only_logs (print_assertion a).
Proof.
  unfold print_assertion. destruct (negb (passed a)).
  - apply only_logs_seq; [apply only_logs_logger |].
    destruct (stackTrace a) as [[s|]|]; try apply only_logs_ret.
    destruct (truthy (VStr s)); [apply only_logs_logger | apply only_logs_ret].
  - apply only_logs_ret.
Qed.

Lemma only_logs_print_spec r : only_logs (print_spec r).
Proof.
  unfold print_spec, printResult.
  apply only_logs_seq; [apply only_logs_logger |].
  destruct (negb _); [| apply only_logs_ret].
  apply only_logs_forEach, only_logs_print_assertion.
Qed.

Lemma only_logs_printPluginResults rs : only_logs (printPluginResults rs).
Proof. apply only_logs_forEach, only_logs_print_spec. Qed.

(** [getResults] returns what the loop collected, logs, and sets the flag,
    unless an own key holds a copied function. *)
Lemma getResults_eq st :
  copied st = [] ->
  exists l,
    getResults st =
    (Normal (collect (for_in (assertions st))),
     set_resultsReported true (set_logged (logged st ++ l) st)).
Proof.
  intros Hc. unfold getResults, bind, get. rewrite Hc.
  destruct (only_logs_printPluginResults
              (specResults (collect (for_in (assertions st)))) st) as [l ->].
  exists l. reflexivity.
Qed.

Lemma getResults_throws st :
  copied st <> [] ->
  getResults st =
  (Thrown (not_a_function "this.assertions[specName].filter"), st).
Proof.
  intros Hc. unfold getResults, bind, get.
  destruct (copied st); [congruence | reflexivity].
Qed.

Lemma getResults_fst st :
  fst (getResults st) =
  match copied st with
  | [] => Normal (collect (for_in (assertions st)))
  | _ :: _ => Thrown (not_a_function "this.assertions[specName].filter")
  end.
Proof.
  destruct (copied st) as [|c l] eqn:Hc.
  - destruct (getResults_eq st Hc) as [l ->]. reflexivity.
  - rewrite getResults_throws by congruence. reflexivity.
Qed.

Lemma getResults_returns st r st' :
  getResults st = (Normal r, st') ->
  copied st = [] /\ r = collect (for_in (assertions st)) /\
  exists l, st' = set_resultsReported true (set_logged (logged st ++ l) st).
Proof.
  intros E. destruct (copied st) as [|c l] eqn:Hc.
  - destruct (getResults_eq st Hc) as [l E']. rewrite E' in E.
    injection E as <- <-. eauto.
  - rewrite getResults_throws in E by congruence. discriminate.
Qed.

(** ** The three capabilities *)

Lemma addAssertion_reported obj i pass m st :
  resultsReported st = true ->
  addAssertion obj i pass m st = (Thrown (Error_ already_reported), st).
Proof. intros H. unfold addAssertion, bind, get. rewrite H. reflexivity. Qed.

Lemma addAssertion_accepted obj i pass m st :
  resultsReported st = false ->
  accepts (spec_key obj i) (assertions st) = true ->
  addAssertion obj i pass m st =
  (Normal tt,
   set_assertions
     (push_assertion (spec_key obj i)
                     (mk_assertion (default no_info i) pass m)
                     (assertions st)) st).
Proof.
  intros H Ha. unfold addAssertion, bind, get. rewrite H.
  unfold accepts in Ha. fold (spec_key obj i).
  destruct (lookup_spec (spec_key obj i) (assertions st)); [reflexivity |].
  destruct (inherited (spec_key obj i)); try discriminate. reflexivity.
Qed.

Lemma addAssertion_refused obj i pass m st :
  resultsReported st = false ->
  accepts (spec_key obj i) (assertions st) = false ->
  addAssertion obj i pass m st =
  (Thrown (not_a_function "this.assertions[specName].push"),
   match inherited (spec_key obj i) with
   | FromPrototype c => set_copied (copy_down c (copied st)) st
   | _ => st
   end).
Proof.
  intros H Ha. unfold addAssertion, bind, get. rewrite H.
  unfold accepts in Ha. fold (spec_key obj i).
  destruct (lookup_spec (spec_key obj i) (assertions st)); [discriminate |].
  destruct (inherited (spec_key obj i)); try discriminate; reflexivity.
Qed.

Lemma has_space_app s t : has_space t = true -> has_space (s +:+ t) = true.
Proof.
  intros H. induction s as [|c s IH]; [exact H |].
  change (String c s +:+ t) with (String c (s +:+ t)). cbn [has_space].
  rewrite IH. apply orb_true_r.
Qed.

Lemma inherited_no_space k : has_space k = true -> inherited k = NoSuch.
Proof.
  intros H. unfold inherited.
  destruct (String.eqb_spec k "__proto__") as [->|_]; [discriminate |].
  cbn [find all_copyable copyable_name].
  repeat match goal with
         | |- context [String.eqb k ?n] =>
             destruct (String.eqb_spec k n) as [->|_]; [discriminate |]
         end.
  reflexivity.
Qed.

(** The default spec name of a plugin is never a name of
    [Object.prototype]. *)
Lemma default_key_accepted n s : accepts (n +:+ " Plugin Tests") s = true.
Proof.
  unfold accepts. destruct (lookup_spec _ s); [reflexivity |].
  rewrite inherited_no_space; [reflexivity |].
  apply has_space_app. reflexivity.
Qed.

Lemma addAssertion_open obj i pass m st :
  resultsReported st = false ->
  truthy_s (specName (default no_info i)) = false ->
  addAssertion obj i pass m st =
  (Normal tt,
   set_assertions
     (push_assertion (ostring_to_string (name obj) +:+ " Plugin Tests")
                     (mk_assertion (default no_info i) pass m)
                     (assertions st)) st).
Proof.
  intros H Hs.
  assert (spec_key obj i = ostring_to_string (name obj) +:+ " Plugin Tests")
    as Hk.
  { unfold spec_key, or_str.
    destruct (specName (default no_info i)); [| reflexivity].
    rewrite Hs. reflexivity. }
  rewrite addAssertion_accepted; [rewrite Hk; reflexivity | exact H |].
  rewrite Hk. apply default_key_accepted.
Qed.

Lemma addWarning_eq obj m o st :
  exists line,
    addWarning obj m o st =
    (Normal tt, set_logged (logged st ++ [{| lvl := LWarn; parts := [line] |}]) st).
Proof. eexists. reflexivity. Qed.

(** ** Properties kept by every statement *)

Create HintDb pres.

Lemma preserves_ret {A} P (a : A) : preserves P (ret a).
Proof. intros st H. exact H. Qed.

Lemma preserves_throw {A} P e : preserves P (@throw A e).
Proof. intros st H. exact H. Qed.

Lemma preserves_get P : preserves P get.
Proof. intros st H. exact H. Qed.

Lemma preserves_bind {A B} P (c : M A) (k : A -> M B) :
  preserves P c -> (forall a, preserves P (k a)) -> preserves P (bind c k).
Proof.
  intros Hc Hk st HP. unfold bind. specialize (Hc st HP).
  destruct (c st) as [[a|e] st']; cbn in *; [apply Hk, Hc | exact Hc].
Qed.

Lemma preserves_try_catch {A} P (c : M A) (h : value -> M A) :
  preserves P c -> (forall e, preserves P (h e)) -> preserves P (try_catch c h).
Proof.
  intros Hc Hh st HP. unfold try_catch. specialize (Hc st HP).
  destruct (c st) as [[a|e] st']; cbn in *; [exact Hc | apply Hh, Hc].
Qed.

Lemma preserves_forEach {A} P (f : A -> M unit) (l : list A) :
  (forall x, preserves P (f x)) -> preserves P (forEach f l).
Proof.
  intros Hf. induction l as [|x l IH]; cbn [forEach].
  - apply preserves_ret.
  - apply preserves_bind; [apply Hf | intros _; exact IH].
Qed.

Lemma preserves_only_logs P (c : M unit) :
  (forall l st, P st -> P (set_logged l st)) ->
  only_logs c -> preserves P c.
Proof.
  intros Hlog Hc st HP. destruct (Hc st) as [l ->]. cbn. apply Hlog, HP.
Qed.

#[export] Hint Resolve preserves_ret preserves_throw preserves_get : pres.

Section Preservation.

Variable P : state -> Prop.

Hypothesis P_logged : forall l st, P st -> P (set_logged l st).
Hypothesis P_invoked : forall l st, P st -> P (set_invoked l st).
Hypothesis P_reported :
  forall st, copied st = [] -> P st -> P (set_resultsReported true st).
Hypothesis P_copied :
  forall c st, P st -> P (set_copied (copy_down c (copied st)) st).
Hypothesis P_push :
  forall k i pass m st,
    resultsReported st = false -> P st ->
    P (set_assertions
         (push_assertion k (mk_assertion i pass m) (assertions st)) st).

Lemma preserves_logger l ps : preserves P (logger l ps).
Proof. intros st H. apply P_logged, H. Qed.

Lemma preserves_printPluginResults rs : preserves P (printPluginResults rs).
Proof.
  apply preserves_only_logs;
    [exact P_logged | apply only_logs_printPluginResults].
Qed.

Lemma preserves_addAssertion obj i pass m :
  preserves P (addAssertion obj i pass m).
Proof.
  intros st H. destruct (resultsReported st) eqn:E.
  - rewrite addAssertion_reported by exact E. exact H.
  - destruct (accepts (spec_key obj i) (assertions st)) eqn:Ha.
    + rewrite addAssertion_accepted by assumption. cbn.
      apply P_push; assumption.
    + rewrite addAssertion_refused by assumption. cbn [snd].
      destruct (inherited (spec_key obj i)); [apply P_copied |..]; exact H.
Qed.

Lemma preserves_addFailure obj m i : preserves P (addFailure obj m i).
Proof. apply preserves_addAssertion. Qed.

Lemma preserves_addSuccess obj o : preserves P (addSuccess obj o).
Proof. apply preserves_addAssertion. Qed.

Lemma preserves_addWarning obj m o : preserves P (addWarning obj m o).
Proof. apply preserves_logger. Qed.

Lemma preserves_getResults : preserves P getResults.
Proof.
  intros st H. destruct (copied st) as [|c l] eqn:Hc.
  - destruct (getResults_eq st Hc) as [l ->]. cbn.
    apply P_reported; [exact Hc | apply P_logged, H].
  - rewrite getResults_throws by congruence. exact H.
Qed.

Lemma preserves_get_message e : preserves P (get_message e).
Proof. destruct e; cbn; auto with pres. Qed.

Lemma preserves_get_stack e : preserves P (get_stack e).
Proof. destruct e; cbn; auto with pres. Qed.

Lemma preserves_logError obj f fv e : preserves P (logError obj f fv e).
Proof.
  unfold logError.
  apply preserves_bind; [apply preserves_get | intros st0].
  apply preserves_bind; [| intros _; apply preserves_ret].
  destruct (resultsReported st0).
  - apply preserves_bind; [apply preserves_get_message | intros m].
    apply preserves_bind; [apply preserves_get_stack | intros s].
    apply preserves_printPluginResults.
  - apply preserves_bind; [apply preserves_get_message | intros m].
    apply preserves_bind; [apply preserves_get_stack | intros s].
    apply preserves_addFailure.
Qed.

Lemma preserves_invoke obj f args : preserves P (invoke obj f args).
Proof.
  unfold invoke. destruct (hooks obj f) as [h|]; [| apply preserves_throw].
  apply preserves_bind.
  - intros st H. apply P_invoked, H.
  - intros _. destruct (h args); auto with pres.
Qed.

Lemma preserves_safeCallPluginFun obj f args pt fv :
  preserves P (safeCallPluginFun obj f args pt fv).
Proof.
  unfold safeCallPluginFun. apply preserves_try_catch.
  - apply preserves_bind; [apply preserves_invoke |].
    intros [v|p]; apply preserves_ret.
  - intros e. apply preserves_logError.
Qed.

Lemma preserves_hookSettled d : preserves P (hookSettled d).
Proof.
  destruct d as [v|obj f fv [|v|e]|]; cbn [hookSettled]; auto with pres.
  apply preserves_try_catch; [apply preserves_logError | auto with pres].
Qed.

Lemma preserves_call_each objs f args pt fv acc :
  preserves P (call_each objs f args pt fv acc).
Proof.
  revert acc. induction objs as [|obj objs IH]; intros acc; cbn [call_each].
  - apply preserves_ret.
  - destruct (hooks obj f); [| apply IH].
    apply preserves_bind; [apply preserves_safeCallPluginFun |].
    intros p. apply IH.
Qed.

Lemma preserves_pluginFunFactory f pt fv args :
  preserves P (pluginFunFactory f pt fv args).
Proof.
  unfold pluginFunFactory.
  apply preserves_bind; [apply preserves_get |].
  intros self. apply preserves_call_each.
Qed.

Lemma preserves_exec a st : P st -> P (exec a st).
Proof.
  destruct a; cbn [exec].
  - apply preserves_addFailure.
  - apply preserves_addSuccess.
  - apply preserves_addWarning.
  - apply preserves_getResults.
  - apply preserves_safeCallPluginFun.
  - apply preserves_pluginFunFactory.
  - apply preserves_hookSettled.
Qed.

Lemma preserves_run_actions acts st : P st -> P (run_actions acts st).
Proof.
  revert st. induction acts as [|a acts IH]; intros st H; cbn.
  - exact H.
  - apply IH, preserves_exec, H.
Qed.

End Preservation.

(** Once set, [resultsReported] stays set. *)
Lemma reported_run_actions acts st :
  reported st -> reported (run_actions acts st).
Proof.
  apply preserves_run_actions; unfold reported; cbn; auto; congruence.
Qed.

(** ** Pushing a record *)

Lemma lookup_push_same k a s :
  lookup_spec k (push_assertion k a s) =
  Some (default [] (lookup_spec k s) ++ [a]).
Proof.
  induction s as [|[k' l] s IH]; cbn.
  - rewrite String.eqb_refl. reflexivity.
  - destruct (String.eqb k k') eqn:E; cbn; rewrite E; [reflexivity | exact IH].
Qed.

Lemma lookup_push_other k k' a s :
  k <> k' -> lookup_spec k' (push_assertion k a s) = lookup_spec k' s.
Proof.
  intros Hne. induction s as [|[k0 l] s IH]; cbn.
  - destruct (String.eqb_spec k' k); [congruence | reflexivity].
  - destruct (String.eqb_spec k k0) as [->|H0]; cbn.
    + destruct (String.eqb_spec k' k0); [congruence | reflexivity].
    + rewrite IH. reflexivity.
Qed.

(** Two successes and one failure under the spec name ["S"], from two
    plugins: one spec with three records, one of them failed. *)
Example three_records_under_one_spec :
  let b := plugin_with "B" "setup" (fun _ => Returns VUndefined) in
  let c := plugin_with "C" "setup" (fun _ => Returns VUndefined) in
  let s := Some {| specName := Some "S"; info_stackTrace := None |} in
  let st := run_actions [CallAddSuccess b s; CallAddSuccess b s;
                         CallAddFailure c (VStr "x") s] (initial [b; c]) in
  fst (getResults st) =
  Normal {| failedCount := 1;
            specResults :=
              [{| description := "S";
                  assertions_of :=
                    [{| passed := true; errorMsg := None; stackTrace := None |};
                     {| passed := true; errorMsg := None; stackTrace := None |};
                     {| passed := false; errorMsg := Some (VStr "x");
                        stackTrace := None |}] |}] |}.
Proof. reflexivity. Qed.

(** A [setup] hook that throws [Error("boom")]: the dispatch is fulfilled
    with an array of length one and the report has one spec,
    ["A Plugin Tests"], with one failed record. *)
Example setup_throws_boom :
  let st := initial [thrower boom] in
  fst (setup [] st) = Normal [Resolved VUndefined] /\
  fst (getResults (snd (setup [] st))) =
  Normal {| failedCount := 1;
            specResults :=
              [{| description := "A Plugin Tests";
                  assertions_of :=
                    [{| passed := false;
                        errorMsg := Some (VStr "Failure during setup: boom");
                        stackTrace := Some (Some "Error: boom") |}] |}] |}.
Proof. split; reflexivity. Qed.

(** ** After the report *)

(** Once [getResults()] has returned, whatever the manager is made to do
    afterwards, [addFailure] and [addSuccess] throw and leave the state as it
    was, and [addWarning] returns and hands one line to the logger. *)
Lemma locked_after_getResults st r st1 later obj message i :
  getResults st = (Normal r, st1) ->
  let st2 := run_actions later st1 in
  addFailure obj message i st2 = (Thrown (Error_ already_reported), st2) /\
  addSuccess obj i st2 = (Thrown (Error_ already_reported), st2) /\
  exists line,
    addWarning obj message i st2 =
    (Normal tt,
     set_logged (logged st2 ++ [{| lvl := LWarn; parts := [line] |}]) st2).
Proof.
  intros E st2.
  assert (H : reported st2).
  { apply reported_run_actions.
    apply getResults_returns in E as (_ & _ & l & ->). reflexivity. }
  split; [| split].
  - apply addAssertion_reported, H.
  - apply addAssertion_reported, H.
  - apply addWarning_eq.
Qed.

(** C2, at a run in which a capability was called with the spec name
    ["constructor"]: that call throws and leaves the function inherited
    from [Object.prototype] as an own property of [assertions]; the call of
    [getResults()] then throws at that key before it sets
    [resultsReported]; and the calls of [addFailure] and [addSuccess] that
    follow return and record. *)
Theorem getResults_that_throws_does_not_lock :
  let obj := thrower boom in
  let named := Some {| specName := Some "constructor";
                       info_stackTrace := None |} in
  let st1 := snd (addSuccess obj named (initial [obj])) in
  fst (addSuccess obj named (initial [obj])) =
  Thrown (not_a_function "this.assertions[specName].push") /\
  getResults st1 =
  (Thrown (not_a_function "this.assertions[specName].filter"), st1) /\
  resultsReported st1 = false /\
  fst (addFailure obj (VStr "late") None st1) = Normal tt /\
  fst (addSuccess obj None st1) = Normal tt /\
  assertions (snd (addFailure obj (VStr "late") None st1)) =
  [("A Plugin Tests",
    [{| passed := false; errorMsg := Some (VStr "late");
        stackTrace := None |}])].
Proof. repeat split. Qed.

(** ** Warnings *)

(** C9: in any state [addWarning] returns, leaves the assertion store and
    the [resultsReported] flag as they were, and so changes nothing in what
    [getResults()] returns, neither [specResults] nor [failedCount]. *)
Theorem addWarning_leaves_results :
  forall obj message options st,
    let st' := snd (addWarning obj message options st) in
    fst (addWarning obj message options st) = Normal tt /\
    assertions st' = assertions st /\
    resultsReported st' = resultsReported st /\
    fst (getResults st') = fst (getResults st).
Proof.
  intros obj message options st st'. subst st'.
  destruct (addWarning_eq obj message options st) as [line ->].
  cbn [fst snd]. rewrite !getResults_fst. repeat split; reflexivity.
Qed.

(** ** The failure count *)

Lemma count_failed_filter l : length (List.filter not_passed l) = count_failed l.
Proof.
  induction l as [|[[] m t] l IH]; cbn; [reflexivity | exact IH |].
  rewrite IH. reflexivity.
Qed.

Lemma failedCount_fold s r :
  failedCount (fold_left collect_spec s r) = failedCount r + total_failed s.
Proof.
  revert r. induction s as [|[k l] s IH]; intros r; cbn [fold_left].
  - cbn. lia.
  - rewrite IH. cbn. rewrite count_failed_filter. lia.
Qed.

Lemma failedCount_collect s : failedCount (collect s) = total_failed s.
Proof. unfold collect. rewrite failedCount_fold. reflexivity. Qed.

Lemma total_failed_perm s s' :
  Permutation s s' -> total_failed s = total_failed s'.
Proof.
  induction 1 as [|[k l] s s' _ IH|[k l] [k' l'] s|s s' s'' _ IH1 _ IH2];
    cbn; lia.
Qed.

Lemma insert_by_index_perm n kv l :
  Permutation (insert_by_index n kv l) ((n, kv) :: l).
Proof.
  induction l as [|[n' kv'] l IH]; cbn; [reflexivity |].
  destruct (n <? n')%N; [reflexivity |].
  rewrite IH. apply perm_swap.
Qed.

(** The loop visits every own key once. *)
Lemma for_in_perm s : Permutation (for_in s) s.
Proof.
  unfold for_in. induction s as [|kv s IH]; cbn; [reflexivity |].
  destruct (array_index (fst kv)) as [n|]; cbn.
  - rewrite insert_by_index_perm. cbn. rewrite IH. reflexivity.
  - rewrite <- Permutation_middle, IH. reflexivity.
Qed.

Lemma failedCount_for_in s : failedCount (collect (for_in s)) = total_failed s.
Proof. rewrite failedCount_collect. apply total_failed_perm, for_in_perm. Qed.

(** C6: whenever [getResults()] returns, which it does when the
    [assertions] object owns nothing but arrays, the [failedCount] of the
    object returned is the number of records, over all spec names, with
    [passed] false; the store is left as it was, so that summing again over
    it, as a second call does, gives the same number. *)
Theorem failedCount_counts_failures :
  forall st,
    (copied st = [] -> exists r st', getResults st = (Normal r, st')) /\
    forall r st',
      getResults st = (Normal r, st') ->
      failedCount r = total_failed (assertions st) /\
      assertions st' = assertions st /\
      exists r2 st'',
        getResults st' = (Normal r2, st'') /\
        failedCount r2 = failedCount r.
Proof.
  intros st. split.
  - intros Hc. destruct (getResults_eq st Hc) as [l E]. eauto.
  - intros r st' E.
    apply getResults_returns in E as (Hc & -> & l & ->).
    split; [apply failedCount_for_in |]. split; [reflexivity |].
    match goal with |- context [getResults ?s] =>
      destruct (getResults_eq s Hc) as [l2 E2] end.
    eexists _, _. split; [exact E2 |]. reflexivity.
Qed.

Lemma failedCount_counts_failures_witness :
  let obj := thrower boom in
  let st := run_actions [CallAddSuccess obj None;
                         CallAddFailure obj (VStr "x") None;
                         CallAddFailure obj (VStr "y")
                           (Some {| specName := Some "7";
                                    info_stackTrace := None |})]
                        (initial [obj]) in
  copied st = [] /\
  exists r st',
    getResults st = (Normal r, st') /\
    failedCount r = 2 /\
    map description (specResults r) = ["7"; "A Plugin Tests"].
Proof.
  intros obj st. split; [reflexivity |].
  destruct (proj1 (failedCount_counts_failures st) eq_refl) as (r & st' & E).
  exists r, st'. split; [exact E |].
  split.
  - rewrite (proj1 (proj2 (failedCount_counts_failures st) r st' E)).
    reflexivity.
  - apply getResults_returns in E as (_ & -> & _). reflexivity.
Defined.

(** ** Names *)

(** C7: when the plugin object has no [name], the name it is given is the
    first non-empty one of the configured name, the configured path, the
    configured package and ["Plugin #<index>"], in this order. *)
Theorem assigned_name_priority :
  forall obj conf i,
    name obj = None ->
    name (annotatePluginObj obj conf i) =
    first_non_empty
      [conf_name conf; path conf; package conf;
       Some ("Plugin #" +:+ pretty i)].
Proof.
  intros obj [p k n] i H. unfold annotatePluginObj, assigned_name.
  cbn [name path package conf_name]. rewrite H.
  destruct n as [[|? ?]|], p as [[|? ?]|], k as [[|? ?]|]; reflexivity.
Qed.

Lemma assigned_name_priority_witness :
  let obj := {| skipAngularStability := false; name := None; config := None;
                hooks := fun _ => None |} in
  let conf := {| path := Some "plugins/timeline.js"; package := None;
                 conf_name := Some EmptyString |} in
  name obj = None /\
  name (annotatePluginObj obj conf 3) = Some "plugins/timeline.js".
Proof.
  intros obj conf. split; [reflexivity |].
  rewrite (assigned_name_priority obj conf 3); reflexivity.
Defined.

(** ** The shape of the records *)

Lemma Forall_push (P : assertion -> Prop) k a s :
  Forall P (all_records (push_assertion k a s)) <->
  P a /\ Forall P (all_records s).
Proof.
  unfold all_records. induction s as [|[k' l] s IH]; cbn [push_assertion].
  - cbn. rewrite Forall_cons. tauto.
  - destruct (String.eqb k k'); cbn [map concat snd].
    + rewrite !Forall_app, Forall_cons, Forall_nil. tauto.
    + rewrite !Forall_app, IH. tauto.
Qed.

Lemma well_shaped_mk_assertion i pass m : well_shaped (mk_assertion i pass m).
Proof.
  unfold well_shaped, mk_assertion. destruct pass; cbn.
  - split; reflexivity.
  - split; [discriminate |].
    destruct (info_stackTrace i) as [s|] eqn:E; cbn; [| left; reflexivity].
    destruct s; cbn; [left; reflexivity |].
    right. eexists. split; [reflexivity | discriminate].
Qed.

Lemma store_ok_run_actions acts st : store_ok st -> store_ok (run_actions acts st).
Proof.
  apply preserves_run_actions; unfold store_ok; cbn; auto.
  intros k i pass m st0 _ H. apply Forall_push.
  split; [apply well_shaped_mk_assertion | exact H].
Qed.

Lemma addAssertion_returns obj i pass m st st' :
  addAssertion obj i pass m st = (Normal tt, st') ->
  resultsReported st = false /\
  accepts (spec_key obj i) (assertions st) = true /\
  st' = set_assertions
          (push_assertion (spec_key obj i)
                          (mk_assertion (default no_info i) pass m)
                          (assertions st)) st.
Proof.
  intros E. destruct (resultsReported st) eqn:H.
  - rewrite addAssertion_reported in E by exact H. discriminate.
  - destruct (accepts (spec_key obj i) (assertions st)) eqn:Ha.
    + rewrite addAssertion_accepted in E by assumption.
      injection E as <-. auto.
    + rewrite addAssertion_refused in E by assumption. discriminate.
Qed.

(** C10: whenever [addSuccess] returns, it has appended, under the spec
    name of the call, exactly the record [{passed: true}], without
    [errorMsg] and without [stackTrace], and written nothing else; whenever
    [addFailure] returns, it has appended one record with [passed] false,
    with [errorMsg] set to the message, and with a [stackTrace] exactly when
    the caller's [info] has a non-empty one, which is then the one stored;
    both do return before the report when the spec name is one the
    [assertions] object takes a record under; and in every state the
    manager can reach, every record of the store has one of these shapes. *)
Theorem assertion_shape :
  (forall obj options st st',
      addSuccess obj options st = (Normal tt, st') ->
      st' = set_assertions
              (push_assertion (spec_key obj options)
                              {| passed := true; errorMsg := None;
                                 stackTrace := None |} (assertions st)) st) /\
  (forall obj message i st st',
      addFailure obj message i st = (Normal tt, st') ->
      exists a,
        st' = set_assertions
                (push_assertion (spec_key obj i) a (assertions st)) st /\
        passed a = false /\
        errorMsg a = Some message /\
        (forall t, stackTrace a = Some t ->
                   exists i0 s, i = Some i0 /\ info_stackTrace i0 = Some s /\
                                t = Some s /\ s <> EmptyString) /\
        (forall i0 s, i = Some i0 -> info_stackTrace i0 = Some s ->
                      s <> EmptyString -> stackTrace a = Some (Some s))) /\
  (forall obj message i st,
      resultsReported st = false ->
      accepts (spec_key obj i) (assertions st) = true ->
      fst (addSuccess obj i st) = Normal tt /\
      fst (addFailure obj message i st) = Normal tt) /\
  (forall objs acts,
      Forall well_shaped
             (all_records (assertions (run_actions acts (initial objs))))).
Proof.
  split; [| split; [| split]].
  - intros obj options st st' E.
    apply addAssertion_returns in E as (_ & _ & ->). reflexivity.
  - intros obj message i st st' E.
    apply addAssertion_returns in E as (_ & _ & ->).
    eexists. split; [reflexivity |]. cbn.
    split; [reflexivity |]. split; [reflexivity |]. split.
    + intros t. destruct i as [i0|]; cbn; [| discriminate].
      destruct (info_stackTrace i0) as [s|] eqn:Es; cbn; [| discriminate].
      destruct (String.eqb_spec s EmptyString) as [->|Hs]; cbn;
        [discriminate |].
      intros [= <-]. exists i0, s. auto.
    + intros i0 s -> Es Hs. cbn. rewrite Es. cbn.
      destruct (String.eqb_spec s EmptyString) as [->|_]; [congruence |].
      reflexivity.
  - intros obj message i st H Ha. unfold addSuccess, addFailure.
    rewrite !addAssertion_accepted by assumption. split; reflexivity.
  - intros objs acts. apply (store_ok_run_actions acts (initial objs)).
    unfold store_ok. cbn. constructor.
Qed.

Lemma assertion_shape_witness :
  let obj := thrower boom in
  let st := initial [obj] in
  let i := Some {| specName := Some "login"; info_stackTrace := Some "at f" |} in
  assertions (snd (addSuccess obj None st)) =
  [("A Plugin Tests",
    [{| passed := true; errorMsg := None; stackTrace := None |}])] /\
  (exists a,
      assertions (snd (addFailure obj (VStr "x") i st)) = [("login", [a])] /\
      passed a = false /\ errorMsg a = Some (VStr "x") /\
      stackTrace a = Some (Some "at f")) /\
  fst (addSuccess obj i st) = Normal tt /\
  fst (addFailure obj (VStr "x") i st) = Normal tt.
Proof.
  intros obj st i. split; [| split].
  - rewrite (proj1 assertion_shape obj None st
                   (snd (addSuccess obj None st)) eq_refl).
    reflexivity.
  - destruct (proj1 (proj2 assertion_shape) obj (VStr "x") i st
                    (snd (addFailure obj (VStr "x") i st)) eq_refl)
      as (a & E & Hp & Hm & _ & Hs).
    exists a. rewrite E. split; [reflexivity |].
    split; [exact Hp |]. split; [exact Hm |].
    apply (Hs _ "at f" eq_refl eq_refl). discriminate.
  - apply (proj1 (proj2 (proj2 assertion_shape)) obj (VStr "x") i st);
      reflexivity.
Defined.

(** ** The isolated call *)

Lemma get_message_ok e st :
  nullish e = false -> get_message e st = (Normal (message_of e), st).
Proof. destruct e; cbn; intros H; try discriminate; reflexivity. Qed.

Lemma get_stack_ok e st :
  nullish e = false -> get_stack e st = (Normal (stack_of e), st).
Proof. destruct e; cbn; intros H; try discriminate; reflexivity. Qed.

Lemma get_message_nullish e st :
  nullish e = true -> get_message e st = (Thrown (cannot_read "message" e), st).
Proof. destruct e; cbn; intros H; try discriminate; reflexivity. Qed.

(** On [undefined] and [null] the closure throws before it writes. *)
Lemma logError_nullish obj f fv e st :
  nullish e = true ->
  logError obj f fv e st = (Thrown (cannot_read "message" e), st).
Proof.
  intros H. unfold logError, bind, get.
  destruct (resultsReported st); rewrite get_message_nullish by exact H;
    reflexivity.
Qed.

Lemma logError_open obj f fv e st :
  nullish e = false -> resultsReported st = false ->
  logError obj f fv e st =
  (Normal (Resolved fv),
   set_assertions
     (push_assertion (ostring_to_string (name obj) +:+ " Plugin Tests")
                     (failure_record f e) (assertions st)) st).
Proof.
  intros H E. unfold logError, bind, get. rewrite E.
  rewrite get_message_ok, get_stack_ok by exact H.
  unfold addFailure.
  rewrite addAssertion_open; [reflexivity | exact E | reflexivity].
Qed.

Lemma logError_reported obj f fv e st :
  nullish e = false -> resultsReported st = true ->
  exists l,
    logError obj f fv e st =
    (Normal (Resolved fv), set_logged (logged st ++ l) st).
Proof.
  intros H E. unfold logError, bind, get. rewrite E.
  rewrite get_message_ok, get_stack_ok by exact H.
  match goal with |- context [printPluginResults ?rs st] =>
    destruct (only_logs_printPluginResults rs st) as [l ->] end.
  exists l. reflexivity.
Qed.

Lemma logError_fst obj f fv e st :
  fst (logError obj f fv e st) =
  if nullish e then Thrown (cannot_read "message" e) else Normal (Resolved fv).
Proof.
  destruct (nullish e) eqn:H.
  - rewrite logError_nullish by exact H. reflexivity.
  - destruct (resultsReported st) eqn:E.
    + destruct (logError_reported obj f fv e st H E) as [l ->]. reflexivity.
    + rewrite logError_open by assumption. reflexivity.
Qed.

Lemma logError_invoked obj f fv e st :
  invoked (snd (logError obj f fv e st)) = invoked st.
Proof.
  apply (preserves_logError (fun s => invoked s = invoked st)); cbn; auto.
Qed.

Lemma safeCallPluginFun_fst obj f args pt fv st :
  fst (safeCallPluginFun obj f args pt fv st) = started obj f args fv.
Proof.
  unfold safeCallPluginFun, try_catch, bind, invoke, started.
  destruct (hooks obj f) as [h|]; cbn -[logError].
  - destruct (h args) as [v|p|e]; cbn -[logError]; try reflexivity.
    rewrite logError_fst. reflexivity.
  - rewrite logError_fst. reflexivity.
Qed.

Lemma safeCallPluginFun_invoked obj f args pt fv st h :
  hooks obj f = Some h ->
  invoked (snd (safeCallPluginFun obj f args pt fv st)) =
  invoked st ++ [(obj, f, args)].
Proof.
  intros H. unfold safeCallPluginFun, try_catch, bind, invoke. rewrite H.
  cbn -[logError].
  destruct (h args) as [v|p|e]; cbn -[logError]; try reflexivity.
  rewrite logError_invoked. reflexivity.
Qed.

Lemma hookSettled_fst d st : fst (hookSettled d st) = Normal (settled_form d).
Proof.
  destruct d as [v|obj f fv [|v|e]|]; cbn -[logError]; try reflexivity.
  unfold try_catch.
  pose proof (logError_fst obj f fv e st) as H.
  destruct (logError obj f fv e st) as [[d|x] st']; cbn in *;
    destruct (nullish e); congruence.
Qed.

(** ** The fan-out *)

Lemma filter_defines_cons f obj objs :
  List.filter (defines f) (obj :: objs) =
  match hooks obj f with
  | Some _ => obj :: List.filter (defines f) objs
  | None => List.filter (defines f) objs
  end.
Proof. cbn. unfold defines. destruct (hooks obj f); reflexivity. Qed.

Lemma call_each_normal f args pt fv objs :
  forall acc st ps st',
    call_each objs f args pt fv acc st = (Normal ps, st') ->
    ps = acc ++ map (fun obj => first_form obj f args fv)
                    (List.filter (defines f) objs) /\
    invoked st' = invoked st ++ map (fun obj => (obj, f, args))
                                    (List.filter (defines f) objs).
Proof.
  induction objs as [|obj objs IH]; intros acc st ps st' H.
  - cbn in H. injection H as <- <-. cbn. rewrite !app_nil_r. auto.
  - rewrite filter_defines_cons. cbn [call_each] in H.
    destruct (hooks obj f) as [h|] eqn:E; [| apply IH, H].
    unfold bind in H.
    pose proof (safeCallPluginFun_fst obj f args pt fv st) as Hf.
    pose proof (safeCallPluginFun_invoked obj f args pt fv st h E) as Hi.
    destruct (safeCallPluginFun obj f args pt fv st) as [[d|x] st1];
      cbn in Hf, Hi; [| discriminate].
    assert (first_form obj f args fv = d) as Hd
      by (unfold first_form; rewrite <- Hf; reflexivity).
    destruct (IH _ _ _ _ H) as [-> ->]. rewrite Hi. cbn [map]. rewrite Hd.
    rewrite <- !app_assoc. auto.
Qed.

Lemma call_each_invoked f args pt fv objs :
  forall acc st,
    exists k,
      invoked (snd (call_each objs f args pt fv acc st)) =
      invoked st ++ map (fun obj => (obj, f, args))
                        (take k (List.filter (defines f) objs)).
Proof.
  induction objs as [|obj objs IH]; intros acc st.
  - exists 0. cbn. rewrite app_nil_r. reflexivity.
  - rewrite filter_defines_cons. cbn [call_each].
    destruct (hooks obj f) as [h|] eqn:E; [| apply IH].
    unfold bind.
    pose proof (safeCallPluginFun_invoked obj f args pt fv st h E) as Hi.
    destruct (safeCallPluginFun obj f args pt fv st) as [[d|x] st1];
      cbn in Hi.
    + destruct (IH (acc ++ [d]) st1) as [k ->]. exists (S k).
      rewrite Hi. cbn. rewrite <- app_assoc. reflexivity.
    + exists 1. cbn. rewrite take_0. exact Hi.
Qed.

Lemma finishes_started f args fv obj :
  finishes f args obj = true ->
  exists d, started obj f args fv = Normal d.
Proof.
  unfold finishes, started. destruct (hooks obj f) as [h|]; [| eauto].
  destruct (h args) as [v|[|v|e]|e]; try discriminate; eauto.
  destruct (nullish e); [discriminate | eauto].
Qed.

Lemma call_each_returns f args pt fv objs :
  forall acc st,
    forallb (finishes f args) (List.filter (defines f) objs) = true ->
    exists ps st', call_each objs f args pt fv acc st = (Normal ps, st').
Proof.
  induction objs as [|obj objs IH]; intros acc st H.
  - cbn. unfold ret. eauto.
  - rewrite filter_defines_cons in H. cbn [call_each].
    destruct (hooks obj f) as [h|] eqn:E; [| apply IH, H].
    cbn in H. apply andb_prop in H as [H1 H2].
    destruct (finishes_started f args fv obj H1) as [d Hd].
    unfold bind.
    pose proof (safeCallPluginFun_fst obj f args pt fv st) as Hf.
    destruct (safeCallPluginFun obj f args pt fv st) as [[d'|x] st1];
      cbn in Hf; [apply IH, H2 | congruence].
Qed.

(** ** Completions in any order *)

Lemma play_event_fst ev ds st : fst (play_event ev (ds, st)) = turn ds ev.
Proof.
  destruct ev as [i|a]; cbn [play_event turn fst snd]; [| reflexivity].
  unfold settle. destruct (ds !! i) as [d|]; [| reflexivity].
  unfold bind. pose proof (hookSettled_fst d st) as H.
  destruct (hookSettled d st) as [[d'|x] st']; cbn in H; [| discriminate].
  injection H as ->. reflexivity.
Qed.

Lemma play_fst evs :
  forall ds st, fst (play evs ds st) = fold_left turn evs ds.
Proof.
  unfold play. induction evs as [|ev evs IH]; intros ds st; cbn [fold_left].
  - reflexivity.
  - pose proof (play_event_fst ev ds st) as H.
    destruct (play_event ev (ds, st)) as [ds1 st1]. cbn in H. subst ds1.
    apply IH.
Qed.

Lemma settled_form_idem d : settled_form (settled_form d) = settled_form d.
Proof.
  destruct d as [v|obj f fv [|v|e]|]; cbn; try reflexivity.
  destruct (nullish e); reflexivity.
Qed.

Lemma turn_lookup_same (ds : list deferred) i :
  turn ds (Completes i) !! i = settled_form <$> ds !! i.
Proof.
  cbn. destruct (ds !! i) as [d|] eqn:E; [| rewrite E; reflexivity].
  rewrite list_lookup_insert_eq; [reflexivity |].
  eapply lookup_lt_Some, E.
Qed.

Lemma turn_lookup_other (ds : list deferred) ev i :
  ev <> Completes i -> turn ds ev !! i = ds !! i.
Proof.
  intros H. destruct ev as [j|a]; cbn; [| reflexivity].
  destruct (ds !! j); [| reflexivity].
  apply list_lookup_insert_ne. congruence.
Qed.

Lemma turn_lookup (ds : list deferred) ev i :
  turn ds ev !! i = ds !! i \/
  ev = Completes i /\ turn ds ev !! i = settled_form <$> ds !! i.
Proof.
  destruct ev as [j|a]; [| left; reflexivity].
  destruct (decide (j = i)) as [->|Hne].
  - right. split; [reflexivity | apply turn_lookup_same].
  - left. apply turn_lookup_other. congruence.
Qed.

Lemma fmap_settled_idem (o : option deferred) :
  settled_form <$> (settled_form <$> o) = settled_form <$> o.
Proof. destruct o; cbn; [rewrite settled_form_idem |]; reflexivity. Qed.

(** After any events an entry is as it was or as its completion leaves it,
    and it is the latter once its completion is among the events. *)
Lemma fold_turn_lookup evs :
  forall (ds : list deferred) i,
    (fold_left turn evs ds !! i = ds !! i \/
     fold_left turn evs ds !! i = settled_form <$> ds !! i) /\
    (In (Completes i) evs ->
     fold_left turn evs ds !! i = settled_form <$> ds !! i).
Proof.
  induction evs as [|ev evs IH]; intros ds i; cbn [fold_left].
  - split; [left; reflexivity | intros []].
  - destruct (IH (turn ds ev) i) as [Hor Hin].
    destruct (turn_lookup ds ev i) as [Hs|[-> Hs]].
    + rewrite Hs in Hor, Hin. split; [exact Hor |].
      intros [->|H]; [| apply Hin, H].
      rewrite turn_lookup_same in Hs. rewrite Hs.
      destruct Hor as [E|E]; [exact E | rewrite E; exact Hs].
    + rewrite Hs, fmap_settled_idem in Hor, Hin.
      assert (fold_left turn evs (turn ds (Completes i)) !! i =
              settled_form <$> ds !! i) as E by (destruct Hor; assumption).
      split; [right; exact E | intros _; exact E].
Qed.

Lemma turn_length (ds : list deferred) ev : length (turn ds ev) = length ds.
Proof.
  destruct ev as [i|a]; cbn; [| reflexivity].
  destruct (ds !! i); [apply length_insert | reflexivity].
Qed.

Lemma fold_turn_length evs :
  forall ds : list deferred, length (fold_left turn evs ds) = length ds.
Proof.
  induction evs as [|ev evs IH]; intros ds; cbn [fold_left]; [reflexivity |].
  rewrite IH. apply turn_length.
Qed.

(** Once every awaitable has settled, in whatever order and whatever else
    happened meanwhile, the deferreds are in their final form. *)
Lemma fold_turn_covers evs (ds : list deferred) :
  covers evs (length ds) -> fold_left turn evs ds = settled_form <$> ds.
Proof.
  intros Hc. apply list_eq. intros i. rewrite list_lookup_fmap.
  destruct (fold_turn_lookup evs ds i) as [Hor Hin].
  destruct (decide (i < length ds)) as [Hlt|Hge].
  - apply Hin, Hc, Hlt.
  - assert (ds !! i = None) as E by (apply lookup_ge_None; lia).
    rewrite E in *. destruct Hor as [->| ->]; reflexivity.
Qed.

(** ** The combined awaitable *)

Lemma promise_all_never_rejects ds e : combined ds <> Rejected e.
Proof.
  unfold combined. induction ds as [|d ds IH]; cbn; [discriminate |].
  destruct d; cbn; destruct (promise_all (map promise_of ds));
    congruence.
Qed.

Lemma combined_Fulfilled ds arr :
  combined ds = Fulfilled arr <-> ds = map Resolved arr.
Proof.
  unfold combined. revert arr. induction ds as [|d ds IH]; intros arr; cbn.
  - split.
    + intros [= <-]. reflexivity.
    + destruct arr; [reflexivity | discriminate].
  - split.
    + intros H.
      destruct d as [v| |]; cbn in H;
        destruct (promise_all (map promise_of ds)) as [|vs|e] eqn:E;
        try discriminate.
      injection H as <-. cbn. f_equal. apply IH. reflexivity.
    + destruct arr as [|v vs]; [discriminate |]. cbn. intros [= -> ->].
      cbn. rewrite (proj2 (IH vs) eq_refl). reflexivity.
Qed.

Lemma resolved_result f args fv obj v :
  defines f obj = true ->
  first_form obj f args fv = Resolved v \/
  settled_form (first_form obj f args fv) = Resolved v ->
  v = result_of f args fv obj.
Proof.
  unfold defines, first_form, started, result_of.
  destruct (hooks obj f) as [h|]; [intros _ | discriminate].
  destruct (h args) as [x|[|x|e]|e]; cbn.
  - intros [H|H]; congruence.
  - intros [H|H]; discriminate.
  - intros [H|H]; congruence.
  - destruct (nullish e); intros [H|H]; congruence.
  - destruct (nullish e); cbn; intros [H|H]; congruence.
Qed.

Lemma finished_result f args fv obj :
  defines f obj = true -> finishes f args obj = true ->
  settled_form (first_form obj f args fv) = Resolved (result_of f args fv obj).
Proof.
  unfold defines, finishes, first_form, started, result_of.
  destruct (hooks obj f) as [h|]; [intros _ | discriminate].
  destruct (h args) as [x|[|x|e]|e]; cbn; try discriminate; try reflexivity.
  - destruct (nullish e); [discriminate | reflexivity].
  - destruct (nullish e); [discriminate | reflexivity].
Qed.

Lemma filter_defines_In f obj objs :
  In obj (List.filter (defines f) objs) -> defines f obj = true.
Proof. intros H. apply List.filter_In in H. tauto. Qed.

(** Whatever array the combined awaitable is fulfilled with, it holds the
    results of the plugins defining the hook, in their order. *)
Lemma fulfilled_with_results f args fv objs evs arr :
  let defining := List.filter (defines f) objs in
  combined (fold_left turn evs
                      (map (fun obj => first_form obj f args fv) defining))
  = Fulfilled arr ->
  arr = map (result_of f args fv) defining.
Proof.
  intros defining H. apply combined_Fulfilled in H.
  apply list_eq. intros i.
  destruct (fold_turn_lookup
              evs (map (fun obj => first_form obj f args fv) defining) i)
    as [Hor _].
  rewrite H in Hor.
  change (map Resolved arr) with (Resolved <$> arr) in Hor.
  change (map (fun obj => first_form obj f args fv) defining)
    with ((fun obj => first_form obj f args fv) <$> defining) in Hor.
  change (map (result_of f args fv) defining)
    with (result_of f args fv <$> defining).
  rewrite !list_lookup_fmap in Hor. rewrite list_lookup_fmap.
  destruct (defining !! i) as [obj|] eqn:E; cbn in *.
  - assert (defines f obj = true) as Hd.
    { apply (filter_defines_In f obj objs).
      apply list_elem_of_In. eapply list_elem_of_lookup_2, E. }
    destruct (arr !! i) as [v|]; cbn in Hor;
      [| destruct Hor; discriminate].
    f_equal. apply resolved_result; [exact Hd |].
    destruct Hor as [[= ->]|[= ->]]; auto.
  - destruct (arr !! i); cbn in Hor; [destruct Hor; discriminate |].
    reflexivity.
Qed.

Lemma finished_all_fulfilled f args fv objs :
  let defining := List.filter (defines f) objs in
  forallb (finishes f args) defining = true ->
  combined (settled_form <$>
              map (fun obj => first_form obj f args fv) defining)
  = Fulfilled (map (result_of f args fv) defining).
Proof.
  intros defining H. apply combined_Fulfilled. subst defining.
  induction objs as [|obj objs IH]; [reflexivity |].
  rewrite filter_defines_cons in *.
  destruct (hooks obj f) as [h|] eqn:E; [| apply IH, H].
  cbn in H. apply andb_prop in H as [H1 H2]. cbn [map fmap list_fmap].
  rewrite finished_result; [| unfold defines; rewrite E; reflexivity | exact H1].
  f_equal. apply IH, H2.
Qed.

Lemma pluginFunFactory_eq f pt fv args st :
  pluginFunFactory f pt fv args st = call_each (pluginObjs st) f args pt fv [] st.
Proof. reflexivity. Qed.

(** C5: a dispatch of hook [funName] invokes the hook on plugins that define
    it and on no other, in registration order; when it returns, it has
    invoked the hook on every such plugin, and whatever array the combined
    awaitable is fulfilled with holds exactly the results of these plugins
    in registration order; the combined awaitable ends up the same whatever
    the order in which the awaitables settle and whatever is done in
    between; and when every hook comes to an end it is fulfilled. *)
Theorem dispatch_results_in_registration_order :
  forall funName promiseType failReturnVal args st,
    let defining := List.filter (defines funName) (pluginObjs st) in
    let call := pluginFunFactory funName promiseType failReturnVal args st in
    (exists k,
        invoked (snd call) =
        invoked st ++ map (fun obj => (obj, funName, args)) (take k defining)) /\
    (forall promises st',
        call = (Normal promises, st') ->
        invoked st' =
        invoked st ++ map (fun obj => (obj, funName, args)) defining /\
        length promises = length defining /\
        (forall evs st1 arr,
            combined (fst (play evs promises st1)) = Fulfilled arr ->
            arr = map (result_of funName args failReturnVal) defining) /\
        (forall evs1 evs2 st1 st2,
            covers evs1 (length promises) ->
            covers evs2 (length promises) ->
            combined (fst (play evs1 promises st1)) =
            combined (fst (play evs2 promises st2)))) /\
    (forallb (finishes funName args) defining = true ->
     exists promises st',
       call = (Normal promises, st') /\
       forall evs st1,
         covers evs (length promises) ->
         combined (fst (play evs promises st1)) =
         Fulfilled (map (result_of funName args failReturnVal) defining)).
Proof.
  intros f pt fv args st defining call. subst call.
  rewrite pluginFunFactory_eq. split; [| split].
  - apply call_each_invoked.
  - intros promises st' H.
    apply call_each_normal in H as [-> Hinv]. cbn [app].
    split; [exact Hinv |]. split; [apply length_map |]. split.
    + intros evs st1 arr Harr. rewrite play_fst in Harr.
      apply (fulfilled_with_results f args fv (pluginObjs st) evs arr Harr).
    + intros evs1 evs2 st1 st2 H1 H2.
      rewrite !play_fst, !fold_turn_covers by assumption. reflexivity.
  - intros Hfin.
    destruct (call_each_returns f args pt fv (pluginObjs st) [] st Hfin)
      as (promises & st' & E).
    exists promises, st'. split; [exact E |].
    apply call_each_normal in E as [-> _]. cbn [app].
    intros evs st1 Hc. rewrite play_fst, fold_turn_covers by exact Hc.
    apply (finished_all_fulfilled f args fv (pluginObjs st) Hfin).
Qed.

Lemma dispatch_results_in_registration_order_witness :
  let st := initial three_plugins in
  forallb (finishes "setup" [])
          (List.filter (defines "setup") (pluginObjs st)) = true /\
  exists promises st',
    setup [] st = (Normal promises, st') /\
    length promises = 2 /\
    combined (fst (play [Completes 1; Completes 0] promises st')) =
    Fulfilled [VNum "1" true; VUndefined] /\
    combined (fst (play [Completes 0; Does CallGetResults; Completes 1]
                        promises st')) =
    Fulfilled [VNum "1" true; VUndefined].
Proof.
  intros st.
  assert (forallb (finishes "setup" [])
                  (List.filter (defines "setup") (pluginObjs st)) = true)
    as Hfin by reflexivity.
  split; [exact Hfin |].
  destruct (dispatch_results_in_registration_order "setup" Q VUndefined [] st)
    as (_ & Hret & Htot).
  destruct (Htot Hfin) as (promises & st' & E & Hall).
  destruct (Hret promises st' E) as (_ & Hlen & _ & _).
  exists promises, st'. split; [exact E |]. split; [exact Hlen |].
  split; apply Hall; rewrite Hlen; intros [|[|i]] Hi; vm_compute in Hi; cbn;
    first [lia | solve [repeat (first [left; reflexivity | right])]].
Defined.

(** ** Fail values *)

Lemma pluginFunFactory_fails_with f pt fv :
  fails_with (pluginFunFactory f pt fv) f fv.
Proof.
  intros st args i obj h e defining Hi Hh He.
  assert (map (result_of f args fv) defining !! i = Some fv) as Hentry.
  { change (map (result_of f args fv)) with
      (fmap (M := list) (result_of f args fv)).
    rewrite list_lookup_fmap, Hi. cbn.
    unfold result_of. rewrite Hh, He. reflexivity. }
  split.
  - intros promises st' evs st1 arr Hcall Harr.
    rewrite pluginFunFactory_eq in Hcall.
    apply call_each_normal in Hcall as [-> _]. cbn [app] in Harr.
    rewrite play_fst in Harr.
    rewrite (fulfilled_with_results f args fv (pluginObjs st) evs arr Harr).
    exact Hentry.
  - intros Hfin. rewrite pluginFunFactory_eq.
    destruct (call_each_returns f args pt fv (pluginObjs st) [] st Hfin)
      as (promises & st' & E).
    exists promises, st'. split; [exact E |].
    apply call_each_normal in E as [-> _]. cbn [app].
    intros evs st1 Hc. eexists. split; [| exact Hentry].
    rewrite play_fst, fold_turn_covers by exact Hc.
    apply (finished_all_fulfilled f args fv (pluginObjs st) Hfin).
Qed.

(** ** Where the isolation gives way *)

(** A hook that comes to an end, other than by throwing or rejecting with
    [undefined] or [null], gives a deferred that is fulfilled, at once or
    when the hook's awaitable settles, with the result of the hook. *)
Lemma isolated_call_settles obj f args pt fv st h :
  hooks obj f = Some h ->
  finishes f args obj = true ->
  exists d st',
    safeCallPluginFun obj f args pt fv st = (Normal d, st') /\
    forall st1,
      fst (hookSettled d st1) =
      Normal (Resolved (result_of f args fv obj)).
Proof.
  intros Hh Hfin.
  pose proof (safeCallPluginFun_fst obj f args pt fv st) as Hf.
  destruct (finishes_started f args fv obj Hfin) as [d Hd].
  rewrite Hd in Hf.
  destruct (safeCallPluginFun obj f args pt fv st) as [[d'|x] st'];
    cbn in Hf; [| discriminate].
  injection Hf as ->. exists d, st'. split; [reflexivity |].
  intros st1. rewrite hookSettled_fst. f_equal.
  assert (first_form obj f args fv = d) as <-
    by (unfold first_form; rewrite Hd; reflexivity).
  apply finished_result; [| exact Hfin].
  unfold defines. rewrite Hh. reflexivity.
Qed.

(** C1, at a hook that fails with [undefined]: when the hook throws it, the
    [TypeError] raised inside [logError] leaves [safeCallPluginFun] and no
    awaitable is returned; when the hook returns an awaitable rejected with
    it, the deferred is still pending after the rejection and nothing will
    settle it.  Nothing is recorded in either case. *)
Theorem safeCallPluginFun_undefined_cause :
  (let obj := thrower VUndefined in
   let st := initial [obj] in
   safeCallPluginFun obj "setup" [] Q VUndefined st =
   (Thrown (cannot_read "message" VUndefined),
    set_invoked [(obj, "setup", [])] st)) /\
  (let obj := rejecter VUndefined in
   let st := initial [obj] in
   exists d st1,
     safeCallPluginFun obj "setup" [] Q VUndefined st = (Normal d, st1) /\
     promise_of d = Pending /\
     hookSettled d st1 = (Normal Dropped, st1) /\
     assertions st1 = [] /\
     forall st2, hookSettled Dropped st2 = (Normal Dropped, st2)).
Proof.
  split.
  - reflexivity.
  - eexists _, _. repeat split.
Qed.

(** C8, at a [waitForCondition] hook that throws [undefined] or [null]:
    the [TypeError] raised inside [logError] leaves the dispatch, which
    returns no awaitable at all, so the hook contributes nothing, neither
    [true] nor [undefined]; a hook that throws an [Error] does contribute
    [true]. *)
Theorem waitForCondition_throwing_undefined :
  (let obj := plugin_with "W" "waitForCondition" (fun _ => Throws VUndefined) in
   let st := initial [obj] in
   waitForCondition [] st =
   (Thrown (cannot_read "message" VUndefined),
    set_invoked [(obj, "waitForCondition", [])] st)) /\
  (let obj := plugin_with "W" "waitForCondition" (fun _ => Throws VNull) in
   let st := initial [obj] in
   waitForCondition [] st =
   (Thrown (cannot_read "message" VNull),
    set_invoked [(obj, "waitForCondition", [])] st)) /\
  (let obj := plugin_with "W" "waitForCondition" (fun _ => Throws boom) in
   fst (waitForCondition [] (initial [obj])) = Normal [Resolved (VBool true)]).
Proof. repeat split. Qed.

(** C3, at a hook that throws the string ["boom"] before the report: the
    record stored carries ["Failure during setup: undefined"], the cause
    itself being left out, while the same failure after the report is
    printed as ["Failure during setup: boom"]. *)
Theorem hook_failure_message_without_fallback :
  let obj := thrower (VStr "boom") in
  let st := initial [obj] in
  assertions (snd (safeCallPluginFun obj "setup" [] Q VUndefined st)) =
  [("A Plugin Tests",
    [{| passed := false;
        errorMsg := Some (VStr "Failure during setup: undefined");
        stackTrace := None |}])] /\
  logged (snd (safeCallPluginFun obj "setup" [] Q VUndefined
                                 (snd (getResults st)))) =
  [{| lvl := LInfo;
      parts := [red; tab; "Fail: "; "A Runtime"; normalColor] |};
   {| lvl := LError;
      parts := [tab +:+ tab +:+ "Failure during setup: boom"] |}].
Proof. split; reflexivity. Qed.

Lemma never_fulfilled_rejecter evs st1 :
  combined (fst (play evs [Waiting (rejecter VUndefined) "setup" VUndefined
                                   (Rejected VUndefined)] st1)) = Pending.
Proof.
  rewrite play_fst.
  match goal with |- combined (fold_left turn evs ?ds) = _ =>
    destruct (fold_turn_lookup evs ds 0) as [Hor _];
    pose proof (fold_turn_length evs ds) as Hlen;
    destruct (fold_left turn evs ds) as [|d [|d' l]]; try discriminate
  end.
  cbn in Hor. destruct Hor as [[= ->]|[= ->]]; reflexivity.
Qed.

(** C4, at the cause [undefined]: with a hook that throws it the dispatch
    itself throws a [TypeError] and returns no awaitable; with a hook that
    returns an awaitable rejected with it the dispatch returns and its
    combined awaitable stays pending whatever happens later.  No assertion
    is recorded in either case. *)
Theorem throw_and_reject_differ_on_undefined :
  (let st := initial [thrower VUndefined] in
   fst (setup [] st) = Thrown (cannot_read "message" VUndefined) /\
   assertions (snd (setup [] st)) = []) /\
  (let st := initial [rejecter VUndefined] in
   exists promises st',
     setup [] st = (Normal promises, st') /\
     assertions st' = [] /\
     (forall evs st1, combined (fst (play evs promises st1)) = Pending) /\
     assertions (snd (play [Completes 0] promises st')) = []).
Proof.
  split.
  - split; reflexivity.
  - eexists _, _. split; [reflexivity |]. split; [reflexivity |].
    split; [| reflexivity].
    intros evs st1. apply never_fulfilled_rejecter.
Qed.

(** For every other cause the two ways of failing do agree: before the
    report, the hook that throws [e] and the hook whose awaitable is
    rejected with [e] store the same record under the same spec name and
    fulfil the deferred with the fail value. *)
Lemma throw_and_reject_agree o1 o2 f args pt fv e h1 h2 st :
  hooks o1 f = Some h1 -> h1 args = Throws e ->
  hooks o2 f = Some h2 -> h2 args = ReturnsPromise (Rejected e) ->
  name o1 = name o2 ->
  nullish e = false ->
  resultsReported st = false ->
  let key := ostring_to_string (name o1) +:+ " Plugin Tests" in
  let stored := push_assertion key (failure_record f e) (assertions st) in
  (exists st1,
      safeCallPluginFun o1 f args pt fv st = (Normal (Resolved fv), st1) /\
      assertions st1 = stored) /\
  (exists st1 st2,
      safeCallPluginFun o2 f args pt fv st =
      (Normal (Waiting o2 f fv (Rejected e)), st1) /\
      assertions st1 = assertions st /\
      hookSettled (Waiting o2 f fv (Rejected e)) st1 =
      (Normal (Resolved fv), st2) /\
      assertions st2 = stored).
Proof.
  intros H1 E1 H2 E2 Hname Hnull Hopen key stored. split.
  - unfold safeCallPluginFun, try_catch, bind, invoke. rewrite H1.
    cbn -[logError]. rewrite E1. cbn -[logError].
    rewrite logError_open by (cbn; assumption).
    eexists. split; reflexivity.
  - unfold safeCallPluginFun, try_catch, bind, invoke. rewrite H2.
    cbn -[logError hookSettled]. rewrite E2. cbn -[logError hookSettled].
    eexists _, _. split; [reflexivity |]. split; [reflexivity |].
    cbn [hookSettled]. unfold try_catch.
    rewrite logError_open by (cbn; assumption).
    split; [reflexivity |]. cbn. subst stored key. rewrite Hname.
    reflexivity.
Qed.

(* ================================================================== *)
(** * Further properties *)

(** ** What the report lists *)

Lemma specResults_fold s r :
  specResults (fold_left collect_spec s r) = specResults r ++ map spec_of s.
Proof.
  revert r. induction s as [|kv s IH]; intros r; cbn [fold_left map].
  - rewrite app_nil_r. reflexivity.
  - rewrite IH. cbn. rewrite <- app_assoc. reflexivity.
Qed.

Lemma specResults_collect s : specResults (collect s) = map spec_of s.
Proof. unfold collect. rewrite specResults_fold. reflexivity. Qed.

Lemma index_entries_perm s :
  Permutation (map snd (index_entries s))
              (List.filter (fun kv => is_index (fst kv)) s).
Proof.
  induction s as [|kv s IH]; cbn; [reflexivity |]. unfold is_index at 1.
  destruct (array_index (fst kv)) as [n|]; [| exact IH].
  rewrite insert_by_index_perm. cbn. rewrite IH. reflexivity.
Qed.

Lemma named_entries_eq s :
  named_entries s = List.filter (fun kv => negb (is_index (fst kv))) s.
Proof.
  unfold named_entries. apply List.filter_ext. intros kv. unfold is_index.
  destruct (array_index (fst kv)); reflexivity.
Qed.

Lemma insert_by_index_sorted n kv l :
  StronglySorted (fun a b : N * (string * list assertion) => (fst a <= fst b)%N) l ->
  StronglySorted (fun a b : N * (string * list assertion) => (fst a <= fst b)%N) (insert_by_index n kv l).
Proof.
  induction 1 as [|[n' kv'] l Hs IH Hall]; cbn.
  - constructor; constructor.
  - destruct (N.ltb_spec n n') as [Hlt|Hge].
    + constructor; [constructor; assumption |].
      constructor; [cbn; lia |].
      eapply Forall_impl; [exact Hall |]. cbn. intros x Hx. lia.
    + constructor; [exact IH |].
      eapply Permutation_Forall;
        [symmetry; apply insert_by_index_perm |].
      constructor; [cbn; lia | exact Hall].
Qed.

Lemma index_entries_sorted s :
  StronglySorted (fun a b : N * (string * list assertion) => (fst a <= fst b)%N) (index_entries s).
Proof.
  induction s as [|kv s IH]; cbn; [constructor |].
  destruct (array_index (fst kv)); [apply insert_by_index_sorted |]; exact IH.
Qed.

Lemma index_entries_tags s :
  Forall (fun e => array_index (fst (snd e)) = Some (fst e)) (index_entries s).
Proof.
  induction s as [|kv s IH]; cbn; [constructor |].
  destruct (array_index (fst kv)) as [n|] eqn:E; [| exact IH].
  eapply Permutation_Forall; [symmetry; apply insert_by_index_perm |].
  constructor; [exact E | exact IH].
Qed.

Lemma tagged_sorted l :
  StronglySorted (fun a b : N * (string * list assertion) => (fst a <= fst b)%N) l ->
  Forall (fun e => array_index (fst (snd e)) = Some (fst e)) l ->
  StronglySorted index_le (map fst (map snd l)).
Proof.
  induction 1 as [|e l Hs IH Hall]; intros Ht; cbn; [constructor |].
  apply Forall_cons in Ht as [He Ht].
  constructor; [apply IH, Ht |].
  rewrite !Forall_map. rewrite Forall_forall in *.
  intros x Hx. unfold index_le. cbn. rewrite He, (Ht x Hx). apply Hall, Hx.
Qed.

(** X1: whenever [getResults()] returns, [specResults] has one entry per
    own key of the store, each with the array stored under that key: first
    the keys that are array indices, in ascending numeric order, then the
    other keys in the order in which they were created; and [failedCount]
    is the number of failed records.  For an empty store it returns
    [{failedCount: 0, specResults: []}]. *)
Theorem getResults_lists_the_store :
  forall st r st',
    getResults st = (Normal r, st') ->
    (exists numbered,
        specResults r =
        map spec_of
            (numbered ++
             List.filter (fun kv => negb (is_index (fst kv))) (assertions st)) /\
        Permutation numbered
                    (List.filter (fun kv => is_index (fst kv)) (assertions st)) /\
        StronglySorted index_le (map fst numbered)) /\
    failedCount r = total_failed (assertions st) /\
    (assertions st = [] -> r = {| failedCount := 0; specResults := [] |}).
Proof.
  intros st r st' E. apply getResults_returns in E as (_ & -> & _).
  split; [| split].
  - exists (map snd (index_entries (assertions st))).
    rewrite specResults_collect. unfold for_in. rewrite named_entries_eq.
    split; [reflexivity |]. split; [apply index_entries_perm |].
    apply tagged_sorted; [apply index_entries_sorted | apply index_entries_tags].
  - apply failedCount_for_in.
  - intros ->. reflexivity.
Qed.

Lemma getResults_lists_the_store_witness :
  let obj := thrower boom in
  let under k := Some {| specName := Some k; info_stackTrace := None |} in
  let st := run_actions [CallAddSuccess obj (under "b");
                         CallAddFailure obj (VStr "x") (under "10");
                         CallAddSuccess obj (under "2");
                         CallAddSuccess obj (under "a");
                         CallAddSuccess obj (under "02")]
                        (initial [obj]) in
  exists r st',
    getResults st = (Normal r, st') /\
    map description (specResults r) = ["2"; "10"; "b"; "a"; "02"] /\
    failedCount r = 1 /\
    failedCount r = total_failed (assertions st).
Proof.
  intros obj under st.
  destruct (getResults_eq st eq_refl) as [l E].
  eexists _, _. split; [exact E |]. split; [reflexivity |].
  split; [reflexivity |].
  exact (proj1 (proj2 (getResults_lists_the_store st _ _ E))).
Defined.

(** ** Counting failures *)

Lemma count_failed_app l a :
  count_failed (l ++ [a]) = count_failed l + (if passed a then 0 else 1).
Proof.
  induction l as [|[[] m t] l IH]; cbn.
  - destruct a as [[] ? ?]; reflexivity.
  - exact IH.
  - rewrite IH. reflexivity.
Qed.

Lemma total_failed_push k a s :
  total_failed (push_assertion k a s) =
  total_failed s + (if passed a then 0 else 1).
Proof.
  induction s as [|[k' l] s IH]; cbn [push_assertion].
  - cbn. destruct a as [[] ? ?]; reflexivity.
  - destruct (String.eqb k k'); cbn [total_failed].
    + rewrite count_failed_app. lia.
    + rewrite IH. lia.
Qed.

(** X2: before the report, with a store that holds arrays only and spec
    names it takes records under, a call of [addFailure] raises the
    [failedCount] that [getResults()] returns by exactly one, and a call of
    [addSuccess] leaves it as it is. *)
Theorem failedCount_accounting :
  forall obj message i options st,
    resultsReported st = false ->
    copied st = [] ->
    accepts (spec_key obj i) (assertions st) = true ->
    accepts (spec_key obj options) (assertions st) = true ->
    exists r r1 r2,
      fst (getResults st) = Normal r /\
      fst (getResults (snd (addFailure obj message i st))) = Normal r1 /\
      fst (getResults (snd (addSuccess obj options st))) = Normal r2 /\
      failedCount r1 = S (failedCount r) /\
      failedCount r2 = failedCount r.
Proof.
  intros obj message i options st H Hc Hi Ho. unfold addFailure, addSuccess.
  rewrite !addAssertion_accepted by assumption. cbn [snd].
  rewrite !getResults_fst. cbn [copied set_assertions]. rewrite Hc.
  eexists _, _, _. repeat split.
  - rewrite !failedCount_for_in. cbn [assertions set_assertions].
    rewrite total_failed_push. cbn. lia.
  - rewrite !failedCount_for_in. cbn [assertions set_assertions].
    rewrite total_failed_push. cbn. lia.
Qed.

Lemma failedCount_accounting_witness :
  let obj := thrower boom in
  let st := initial [obj] in
  resultsReported st = false /\
  copied st = [] /\
  exists r r1 r2,
    fst (getResults st) = Normal r /\
    fst (getResults (snd (addFailure obj (VStr "x") None st))) = Normal r1 /\
    fst (getResults (snd (addSuccess obj None st))) = Normal r2 /\
    failedCount r1 = S (failedCount r) /\
    failedCount r2 = failedCount r.
Proof.
  intros obj st. split; [reflexivity |]. split; [reflexivity |].
  apply (failedCount_accounting obj (VStr "x") None None st); reflexivity.
Defined.

Lemma count_failed_zero l :
  count_failed l = 0 <-> Forall (fun a => passed a = true) l.
Proof.
  induction l as [|[[] m t] l IH]; cbn.
  - split; [constructor | reflexivity].
  - rewrite Forall_cons. cbn. tauto.
  - rewrite Forall_cons. cbn. split; [discriminate | intros [H _]; discriminate].
Qed.

Lemma count_failed_le l : count_failed l <= length l.
Proof. induction l as [|[[] m t] l IH]; cbn; lia. Qed.

Lemma total_failed_zero s :
  total_failed s = 0 <-> Forall (fun a => passed a = true) (all_records s).
Proof.
  unfold all_records. induction s as [|[k l] s IH]; cbn.
  - split; [constructor | reflexivity].
  - rewrite Forall_app, <- IH, <- count_failed_zero. lia.
Qed.

Lemma total_failed_le s : total_failed s <= length (all_records s).
Proof.
  unfold all_records. induction s as [|[k l] s IH]; cbn; [lia |].
  rewrite List.length_app. pose proof (count_failed_le l). lia.
Qed.

(** X3: when the store holds arrays only, the [failedCount] that
    [getResults()] returns is zero exactly when every record of the store
    passed, and it never exceeds the number of records. *)
Theorem failedCount_zero_iff_all_passed :
  forall st,
    copied st = [] ->
    exists r,
      fst (getResults st) = Normal r /\
      (failedCount r = 0 <->
       Forall (fun a => passed a = true) (all_records (assertions st))) /\
      failedCount r <= length (all_records (assertions st)).
Proof.
  intros st Hc. eexists. split; [rewrite getResults_fst, Hc; reflexivity |].
  rewrite failedCount_for_in. split.
  - apply total_failed_zero.
  - apply total_failed_le.
Qed.

Lemma failedCount_zero_iff_all_passed_witness :
  let obj := thrower boom in
  let st := run_actions [CallAddSuccess obj None;
                         CallAddFailure obj (VStr "x") None] (initial [obj]) in
  copied st = [] /\
  exists r,
    fst (getResults st) = Normal r /\
    failedCount r <= 2.
Proof.
  intros obj st. split; [reflexivity |].
  destruct (failedCount_zero_iff_all_passed st eq_refl) as (r & E & _ & Hle).
  exists r. split; [exact E | exact Hle].
Defined.

(** ** Appending under a spec name *)

Lemma addAssertion_lookup obj i pass m st :
  resultsReported st = false ->
  accepts (spec_key obj i) (assertions st) = true ->
  let key := spec_key obj i in
  let st' := snd (addAssertion obj i pass m st) in
  lookup_spec key (assertions st') =
  Some (default [] (lookup_spec key (assertions st)) ++
        [mk_assertion (default no_info i) pass m]) /\
  forall k, k <> key ->
            lookup_spec k (assertions st') = lookup_spec k (assertions st).
Proof.
  intros H Ha key st'. subst st'. rewrite addAssertion_accepted by assumption.
  cbn [snd assertions set_assertions]. split.
  - apply lookup_push_same.
  - intros k Hk. apply lookup_push_other.
    intros E. apply Hk. rewrite <- E. reflexivity.
Qed.

(** X4: before the report, [addFailure] and [addSuccess] with a non-empty
    [info.specName] that the [assertions] object takes records under (a
    name that holds an array already, or one [Object.prototype] does not
    have) append their record at the end of the array stored under that
    name, starting the array when there is none, and leave the arrays of
    all other names as they were. *)
Theorem capability_appends_under_specName :
  forall obj message i s st,
    resultsReported st = false ->
    specName i = Some s -> s <> EmptyString ->
    accepts s (assertions st) = true ->
    let old := default [] (lookup_spec s (assertions st)) in
    let st1 := snd (addFailure obj message (Some i) st) in
    let st2 := snd (addSuccess obj (Some i) st) in
    (lookup_spec s (assertions st1) =
     Some (old ++ [mk_assertion i false message]) /\
     forall k, k <> s ->
               lookup_spec k (assertions st1) = lookup_spec k (assertions st)) /\
    (lookup_spec s (assertions st2) =
     Some (old ++ [{| passed := true; errorMsg := None;
                      stackTrace := None |}]) /\
     forall k, k <> s ->
               lookup_spec k (assertions st2) = lookup_spec k (assertions st)).
Proof.
  intros obj message i s st H Hs Hne Ha.
  assert (spec_key obj (Some i) = s) as Hk.
  { unfold spec_key. cbn. rewrite Hs.
    destruct s; [exfalso; apply Hne; reflexivity | reflexivity]. }
  rewrite <- Hk in Ha.
  intros old st1 st2. split.
  - pose proof (addAssertion_lookup obj (Some i) false message st H Ha) as L.
    cbv zeta in L. rewrite Hk in L. exact L.
  - pose proof (addAssertion_lookup obj (Some i) true VUndefined st H Ha) as L.
    cbv zeta in L. rewrite Hk in L. exact L.
Qed.

Lemma capability_appends_under_specName_witness :
  let obj := thrower boom in
  let i := {| specName := Some "S"; info_stackTrace := None |} in
  let st := snd (addSuccess obj (Some i) (initial [obj])) in
  resultsReported st = false /\
  accepts "S" (assertions st) = true /\
  lookup_spec "S" (assertions (snd (addFailure obj (VStr "x") (Some i) st))) =
  Some [{| passed := true; errorMsg := None; stackTrace := None |};
        {| passed := false; errorMsg := Some (VStr "x");
           stackTrace := None |}].
Proof.
  intros obj i st. split; [reflexivity |]. split; [reflexivity |].
  apply (capability_appends_under_specName obj (VStr "x") i "S" st);
    [reflexivity | reflexivity | discriminate | reflexivity].
Defined.

(** X5: before the report, a capability called without [info], without
    [info.specName] or with an empty one stores its record under
    ["<name> Plugin Tests"], [<name>] being the name of the plugin. *)
Theorem capability_default_spec_name :
  forall obj message i st,
    resultsReported st = false ->
    truthy_s (specName (default no_info i)) = false ->
    let key := ostring_to_string (name obj) +:+ " Plugin Tests" in
    let old := default [] (lookup_spec key (assertions st)) in
    lookup_spec key (assertions (snd (addFailure obj message i st))) =
    Some (old ++ [mk_assertion (default no_info i) false message]) /\
    lookup_spec key (assertions (snd (addSuccess obj i st))) =
    Some (old ++ [{| passed := true; errorMsg := None; stackTrace := None |}]).
Proof.
  intros obj message i st H Hs key old. unfold addFailure, addSuccess.
  rewrite !addAssertion_open by assumption.
  cbn [snd assertions set_assertions]. fold key.
  split; apply lookup_push_same.
Qed.

Lemma capability_default_spec_name_witness :
  let obj := thrower boom in
  let i := Some {| specName := Some EmptyString; info_stackTrace := None |} in
  let st := initial [obj] in
  resultsReported st = false /\
  truthy_s (specName (default no_info i)) = false /\
  lookup_spec "A Plugin Tests"
              (assertions (snd (addSuccess obj i st))) =
  Some [{| passed := true; errorMsg := None; stackTrace := None |}].
Proof.
  intros obj i st. split; [reflexivity |]. split; [reflexivity |].
  apply (capability_default_spec_name obj VUndefined i st); reflexivity.
Defined.

(** ** Spec names that every object inherits *)

Lemma copy_down_nonempty c l : copy_down c l <> [].
Proof.
  unfold copy_down.
  destruct l as [|c' l]; cbn; [discriminate |].
  destruct (_ || _); [discriminate |]. discriminate.
Qed.

Lemma inherited_ProtoAccessor k : inherited k = ProtoAccessor -> k = "__proto__".
Proof.
  unfold inherited. destruct (String.eqb_spec k "__proto__") as [->|_];
    [reflexivity |].
  destruct (find _ all_copyable); discriminate.
Qed.

(** Once an own key holds a copied function, [getResults()] throws for
    good, and the flag keeps its value. *)
Lemma poisoned_run_actions acts st :
  copied st <> [] ->
  copied (run_actions acts st) <> [] /\
  resultsReported (run_actions acts st) = resultsReported st.
Proof.
  intros Hc.
  apply (preserves_run_actions
           (fun st' => copied st' <> [] /\
                       resultsReported st' = resultsReported st)); cbn; auto.
  - intros st0 E [H _]. congruence.
  - intros c st0 [_ H]. split; [apply copy_down_nonempty | exact H].
Qed.

(** X27: before the report, [addFailure] and [addSuccess] called with a
    spec name that [Object.prototype] has, such as [constructor] or
    [toString], throw a [TypeError] and store no record.  Unless the name is
    [__proto__], the [assertions] object is left owning a function under
    that name, and from then on, whatever the manager is made to do,
    [getResults()] throws and [resultsReported] is never set. *)
Theorem inherited_spec_name_is_refused :
  forall obj message i st,
    resultsReported st = false ->
    accepts (spec_key obj i) (assertions st) = false ->
    fst (addFailure obj message i st) =
    Thrown (not_a_function "this.assertions[specName].push") /\
    fst (addSuccess obj i st) =
    Thrown (not_a_function "this.assertions[specName].push") /\
    assertions (snd (addFailure obj message i st)) = assertions st /\
    assertions (snd (addSuccess obj i st)) = assertions st /\
    (spec_key obj i <> "__proto__" ->
     forall acts,
       let st2 := run_actions acts (snd (addFailure obj message i st)) in
       getResults st2 =
       (Thrown (not_a_function "this.assertions[specName].filter"), st2) /\
       resultsReported st2 = false).
Proof.
  intros obj message i st H Ha. unfold addFailure, addSuccess.
  rewrite !addAssertion_refused by assumption. cbn [fst snd].
  split; [reflexivity |]. split; [reflexivity |].
  assert (forall st0 : state,
             assertions
               match inherited (spec_key obj i) with
               | FromPrototype c => set_copied (copy_down c (copied st0)) st0
               | _ => st0
               end = assertions st0) as Hsame
    by (intros st0; destruct (inherited (spec_key obj i)); reflexivity).
  split; [apply Hsame |]. split; [apply Hsame |].
  intros Hk acts.
  unfold accepts in Ha.
  destruct (lookup_spec (spec_key obj i) (assertions st)); [discriminate |].
  destruct (inherited (spec_key obj i)) as [c| |] eqn:Ei; try discriminate.
  - destruct (poisoned_run_actions
                acts (set_copied (copy_down c (copied st)) st)) as [Hc Hr].
    { cbn. apply copy_down_nonempty. }
    split; [apply getResults_throws, Hc |]. rewrite Hr. exact H.
  - exfalso. apply Hk, inherited_ProtoAccessor, Ei.
Qed.

Lemma inherited_spec_name_is_refused_witness :
  let obj := thrower boom in
  let i := Some {| specName := Some "toString"; info_stackTrace := None |} in
  let st := snd (addSuccess obj None (initial [obj])) in
  let st2 := run_actions [CallAddSuccess obj None; CallGetResults]
                         (snd (addFailure obj (VStr "x") i st)) in
  resultsReported st = false /\
  accepts (spec_key obj i) (assertions st) = false /\
  fst (addFailure obj (VStr "x") i st) =
  Thrown (not_a_function "this.assertions[specName].push") /\
  getResults st2 =
  (Thrown (not_a_function "this.assertions[specName].filter"), st2) /\
  resultsReported st2 = false.
Proof.
  intros obj i st st2. split; [reflexivity |]. split; [reflexivity |].
  destruct (inherited_spec_name_is_refused obj (VStr "x") i st
                                           eq_refl eq_refl)
    as (Ef & _ & _ & _ & Hlater).
  split; [exact Ef |].
  apply (Hlater ltac:(discriminate)
                [CallAddSuccess obj None; CallGetResults]).
Defined.

(** ** What the store keeps *)

Lemma grown_from_refl s : grown_from s s.
Proof. intros k l H. exists []. rewrite app_nil_r. exact H. Qed.

Lemma grown_from_trans s1 s2 s3 :
  grown_from s1 s2 -> grown_from s2 s3 -> grown_from s1 s3.
Proof.
  intros H12 H23 k l H.
  destruct (H12 k l H) as [l1 H1]. destruct (H23 k _ H1) as [l2 H2].
  exists (l1 ++ l2). rewrite app_assoc. exact H2.
Qed.

Lemma grown_from_push k a s : grown_from s (push_assertion k a s).
Proof.
  intros k' l H. destruct (String.eqb_spec k k') as [->|Hne].
  - exists [a]. rewrite lookup_push_same, H. reflexivity.
  - exists []. rewrite lookup_push_other, app_nil_r by exact Hne. exact H.
Qed.

(** X6: whatever the manager is made to do, no array of the store is
    removed and no record in it is removed or changed: each array is still
    there afterwards, with records at most appended. *)
Theorem records_are_never_removed :
  forall acts st,
    grown_from (assertions st) (assertions (run_actions acts st)).
Proof.
  intros acts st.
  apply (preserves_run_actions
           (fun st' => grown_from (assertions st) (assertions st')));
    cbn; auto using grown_from_refl.
  intros k i pass m st0 _ H.
  eapply grown_from_trans; [exact H | apply grown_from_push].
Qed.

(** X7: once the results are reported, nothing the manager is made to do
    changes the store. *)
Theorem store_is_frozen_after_the_report :
  forall acts st,
    resultsReported st = true ->
    assertions (run_actions acts st) = assertions st.
Proof.
  intros acts st H.
  apply (proj2 (A := resultsReported (run_actions acts st) = true)).
  apply (preserves_run_actions
           (fun st' => resultsReported st' = true /\
                       assertions st' = assertions st));
    cbn; auto.
  - intros st0 _ [_ E]. auto.
  - intros k i pass m st0 H0 [H1 _]. congruence.
Qed.

Lemma store_is_frozen_after_the_report_witness :
  let obj := thrower boom in
  let st := snd (getResults (snd (setup [] (initial [obj])))) in
  let acts := [CallAddFailure obj (VStr "late") None;
               CallSafe obj "setup" [] Q VUndefined; CallGetResults] in
  resultsReported st = true /\
  assertions (run_actions acts st) = assertions st.
Proof.
  intros obj st acts. split; [reflexivity |].
  apply (store_is_frozen_after_the_report acts st). reflexivity.
Defined.

(** X25: once [getResults()] has returned, whatever the manager is made to
    do afterwards, every call of [addFailure] and of [addSuccess] throws
    ["Cannot add new tests results, since they were already reported."] and
    changes nothing, while [addWarning] returns and only hands one line to
    the logger. *)
Theorem capabilities_after_the_report :
  forall st r st1 later obj message i,
    getResults st = (Normal r, st1) ->
    let st2 := run_actions later st1 in
    addFailure obj message i st2 = (Thrown (Error_ already_reported), st2) /\
    addSuccess obj i st2 = (Thrown (Error_ already_reported), st2) /\
    exists line,
      addWarning obj message i st2 =
      (Normal tt,
       set_logged (logged st2 ++ [{| lvl := LWarn; parts := [line] |}]) st2).
Proof. intros st r st1 later obj message i. apply locked_after_getResults. Qed.

Lemma capabilities_after_the_report_witness :
  let obj := thrower boom in
  let st := snd (setup [] (initial [obj])) in
  let st2 := run_actions [CallDispatch "teardown" Q VUndefined []]
                         (snd (getResults st)) in
  fst (getResults st) =
  Normal {| failedCount := 1;
            specResults :=
              [{| description := "A Plugin Tests";
                  assertions_of :=
                    [{| passed := false;
                        errorMsg := Some (VStr "Failure during setup: boom");
                        stackTrace := Some (Some "Error: boom") |}] |}] |} /\
  addFailure obj (VStr "late") None st2 =
  (Thrown (Error_ already_reported), st2) /\
  addSuccess obj None st2 = (Thrown (Error_ already_reported), st2).
Proof.
  intros obj st st2. split; [reflexivity |].
  destruct (capabilities_after_the_report
              st (collect (for_in (assertions st))) (snd (getResults st))
              [CallDispatch "teardown" Q VUndefined []]
              obj (VStr "late") None eq_refl) as (Hf & Hs & _).
  split; [exact Hf | exact Hs].
Defined.

(** ** What only [getResults] and the constructor do *)

Lemma exec_keeps_flag a st :
  is_getResults a = false ->
  resultsReported (exec a st) = resultsReported st.
Proof.
  intros Ha.
  destruct a; cbn [exec]; try discriminate.
  - apply (preserves_addFailure
             (fun st' => resultsReported st' = resultsReported st));
      cbn; auto.
  - apply (preserves_addSuccess
             (fun st' => resultsReported st' = resultsReported st));
      cbn; auto.
  - apply (preserves_addWarning
             (fun st' => resultsReported st' = resultsReported st));
      cbn; auto.
  - apply (preserves_safeCallPluginFun
             (fun st' => resultsReported st' = resultsReported st));
      cbn; auto.
  - apply (preserves_pluginFunFactory
             (fun st' => resultsReported st' = resultsReported st));
      cbn; auto.
  - apply (preserves_hookSettled
             (fun st' => resultsReported st' = resultsReported st));
      cbn; auto.
Qed.

(** X8: nothing but [getResults()] sets [resultsReported]: through any
    capability calls, isolated calls, dispatches and completions the flag
    keeps its value. *)
Theorem only_getResults_sets_the_flag :
  forall acts st,
    forallb (fun a => negb (is_getResults a)) acts = true ->
    resultsReported (run_actions acts st) = resultsReported st.
Proof.
  induction acts as [|a acts IH]; intros st H; cbn in *; [reflexivity |].
  apply andb_prop in H as [Ha Hacts].
  unfold run_actions in IH. rewrite IH by exact Hacts.
  apply exec_keeps_flag. destruct (is_getResults a); [discriminate | reflexivity].
Qed.

Lemma only_getResults_sets_the_flag_witness :
  let obj := thrower boom in
  let acts := [CallDispatch "setup" Q VUndefined [];
               CallAddSuccess obj None;
               CallAddWarning obj (VStr "w") None] in
  forallb (fun a => negb (is_getResults a)) acts = true /\
  resultsReported (run_actions acts (initial [obj])) = false.
Proof.
  intros obj acts. split; [reflexivity |].
  rewrite (only_getResults_sets_the_flag acts (initial [obj])); reflexivity.
Defined.

(** ** Spec names in the report *)

Lemma In_keys_push k k' a s :
  In k' (map fst (push_assertion k a s)) <-> k' = k \/ In k' (map fst s).
Proof.
  induction s as [|[k0 l] s IH]; cbn.
  - split; [intros [<-|[]]; auto | intros [->|[]]; auto].
  - destruct (String.eqb_spec k k0) as [->|Hne]; cbn.
    + split; [tauto | intros [->|H]; tauto].
    + rewrite IH. split; [tauto | intros [H|[H|H]]; tauto].
Qed.

Lemma NoDup_keys_push k a s :
  List.NoDup (map fst s) -> List.NoDup (map fst (push_assertion k a s)).
Proof.
  induction s as [|[k0 l] s IH]; cbn; intros H.
  - apply List.NoDup_cons_iff. split; [intros [] | constructor].
  - destruct (String.eqb_spec k k0) as [->|Hne]; cbn; [exact H |].
    apply List.NoDup_cons_iff in H as [Hin Hnd].
    apply List.NoDup_cons_iff. split; [| apply IH, Hnd].
    rewrite In_keys_push. intros [E|E]; [congruence | tauto].
Qed.

Lemma nonempty_push k a s :
  Forall (fun kv => snd kv <> []) s ->
  Forall (fun kv : string * list assertion => snd kv <> [])
         (push_assertion k a s).
Proof.
  induction s as [|[k0 l] s IH]; cbn; intros H.
  - constructor; [discriminate | constructor].
  - apply Forall_cons in H as [H0 Hs].
    destruct (String.eqb k k0); apply Forall_cons; split; auto.
    cbn. destruct l; discriminate.
Qed.

(** X10: in every state the manager can reach, the store has no spec name
    twice and no spec name without records; so whenever [getResults()]
    returns in such a state, it lists no spec name twice and no spec
    without records. *)
Theorem report_has_distinct_nonempty_specs :
  forall objs acts,
    let st := run_actions acts (initial objs) in
    List.NoDup (map fst (assertions st)) /\
    Forall (fun kv => snd kv <> []) (assertions st) /\
    forall r st',
      getResults st = (Normal r, st') ->
      List.NoDup (map description (specResults r)) /\
      Forall (fun sr => assertions_of sr <> []) (specResults r).
Proof.
  intros objs acts st.
  assert (List.NoDup (map fst (assertions st)) /\
          Forall (fun kv => snd kv <> []) (assertions st)) as [H1 H2].
  { apply (preserves_run_actions
             (fun st' => List.NoDup (map fst (assertions st')) /\
                         Forall (fun kv => snd kv <> []) (assertions st')));
      cbn; auto.
    - intros k i pass m st0 _ [Hn Hf]. split.
      + apply NoDup_keys_push, Hn.
      + apply nonempty_push, Hf.
    - split; constructor. }
  split; [exact H1 |]. split; [exact H2 |].
  intros r st' E. apply getResults_returns in E as (_ & -> & _).
  rewrite specResults_collect. split.
  - rewrite List.map_map. cbn.
    eapply Permutation_NoDup; [| exact H1].
    symmetry. apply Permutation_map, for_in_perm.
  - apply Forall_map. cbn.
    eapply Permutation_Forall; [symmetry; apply for_in_perm | exact H2].
Qed.

Lemma report_has_distinct_nonempty_specs_witness :
  let obj := thrower boom in
  let acts := [CallDispatch "setup" Q VUndefined [];
               CallAddSuccess obj None;
               CallAddSuccess obj (Some {| specName := Some "1";
                                           info_stackTrace := None |})] in
  exists r st',
    getResults (run_actions acts (initial [obj])) = (Normal r, st') /\
    map description (specResults r) = ["1"; "A Plugin Tests"] /\
    List.NoDup (map description (specResults r)).
Proof.
  intros obj acts.
  destruct (getResults_eq (run_actions acts (initial [obj])) eq_refl)
    as [l E].
  eexists _, _. split; [exact E |]. split; [reflexivity |].
  exact (proj1 (proj2 (proj2 (report_has_distinct_nonempty_specs [obj] acts))
                      _ _ E)).
Defined.

(** X26: whenever a dispatch returns and its combined awaitable is
    fulfilled, the entry of a plugin whose hook threw is the fail value of
    the dispatch point, [true] at [waitForCondition] and [undefined] at the
    seven others; and when no hook hangs and none throws or rejects with
    [undefined] or [null], the dispatch returns and the combined awaitable
    is fulfilled with such an array once all awaitables have settled. *)
Theorem waitForCondition_fails_with_true :
  fails_with waitForCondition "waitForCondition" (VBool true) /\
  fails_with setup "setup" VUndefined /\
  fails_with teardown "teardown" VUndefined /\
  fails_with postResults "postResults" VUndefined /\
  fails_with postTest "postTest" VUndefined /\
  fails_with onPageLoad "onPageLoad" VUndefined /\
  fails_with onPageStable "onPageStable" VUndefined /\
  fails_with waitForPromise "waitForPromise" VUndefined.
Proof. repeat apply conj; apply pluginFunFactory_fails_with. Qed.

Lemma waitForCondition_fails_with_true_witness :
  let obj := plugin_with "W" "waitForCondition" (fun _ => Throws boom) in
  let st := initial [obj] in
  List.filter (defines "waitForCondition") (pluginObjs st) !! 0 = Some obj /\
  forallb (finishes "waitForCondition" [])
          (List.filter (defines "waitForCondition") (pluginObjs st)) = true /\
  exists promises st',
    waitForCondition [] st = (Normal promises, st') /\
    forall evs st1,
      covers evs (length promises) ->
      exists arr,
        combined (fst (play evs promises st1)) = Fulfilled arr /\
        arr !! 0 = Some (VBool true).
Proof.
  intros obj st. split; [reflexivity |]. split; [reflexivity |].
  destruct (proj1 waitForCondition_fails_with_true st [] 0 obj
                  (fun _ => Throws boom) boom eq_refl eq_refl eq_refl)
    as [_ H].
  exact (H eq_refl).
Defined.

(** ** [skipAngularStability] and names *)

Lemma fold_skip (l : list ProtractorPlugin) acc :
  fold_left (fun skip pluginObj => skipAngularStability pluginObj || skip)
            l acc =
  existsb skipAngularStability l || acc.
Proof.
  revert acc. induction l as [|obj l IH]; intros acc; cbn; [reflexivity |].
  rewrite IH. destruct (skipAngularStability obj), (existsb _ l), acc;
    reflexivity.
Qed.

(** X11: [skipAngularStability()] is true exactly when some registered
    plugin has its [skipAngularStability] flag set; with no plugin
    registered it is false. *)
Theorem skipAngularStability_iff_some_plugin :
  forall st,
    skipAngularStability_any st = true <->
    exists obj, In obj (pluginObjs st) /\ skipAngularStability obj = true.
Proof.
  intros st. unfold skipAngularStability_any.
  rewrite fold_skip, orb_false_r. apply List.existsb_exists.
Qed.

Lemma assigned_name_truthy obj conf i :
  truthy_s (Some (assigned_name obj conf i)) = true.
Proof.
  unfold assigned_name, or_str.
  destruct (oor _ (package conf)) as [[|c s]|]; reflexivity.
Qed.

Lemma assigned_name_kept obj conf i :
  truthy_s (name obj) = true -> Some (assigned_name obj conf i) = name obj.
Proof.
  intros H. unfold assigned_name, oor. rewrite H.
  destruct (name obj) as [[|c s]|]; try discriminate. reflexivity.
Qed.

(** X12: after [annotatePluginObj] the plugin has a non-empty name; a
    non-empty name the object already had is kept, whatever the
    configuration says; and annotating again, with any configuration and
    index, does not change the name. *)
Theorem annotated_name_is_set_and_stable :
  forall obj conf i,
    truthy_s (name (annotatePluginObj obj conf i)) = true /\
    (truthy_s (name obj) = true ->
     name (annotatePluginObj obj conf i) = name obj) /\
    forall conf' j,
      name (annotatePluginObj (annotatePluginObj obj conf i) conf' j) =
      name (annotatePluginObj obj conf i).
Proof.
  intros obj conf i. split; [apply assigned_name_truthy |]. split.
  - apply assigned_name_kept.
  - intros conf' j. cbn [annotatePluginObj name].
    apply assigned_name_kept. apply assigned_name_truthy.
Qed.

Lemma annotated_name_is_set_and_stable_witness :
  let obj := plugin_with "mine" "setup" (fun _ => Returns VNull) in
  let conf := {| path := Some "p.js"; package := Some "pkg";
                 conf_name := Some "configured" |} in
  truthy_s (name obj) = true /\
  name (annotatePluginObj obj conf 0) = Some "mine".
Proof.
  intros obj conf. split; [reflexivity |].
  apply (proj1 (proj2 (annotated_name_is_set_and_stable obj conf 0))).
  reflexivity.
Defined.

(** ** What is printed *)

Lemma fold_andb l acc : fold_left andb l acc = forallb id l && acc.
Proof.
  revert acc. induction l as [|b l IH]; intros acc; cbn; [reflexivity |].
  rewrite IH. destruct b, acc, (forallb id l); reflexivity.
Qed.

Lemma all_passed l :
  fold_left andb (map passed l) true = forallb passed l.
Proof.
  rewrite fold_andb, andb_true_r. induction l as [|a l IH]; cbn; [reflexivity |].
  rewrite IH. reflexivity.
Qed.

Lemma forEach_lines {A} (f : A -> M unit) (g : A -> list entry) (l : list A) :
  (forall x st, f x st = (Normal tt, set_logged (logged st ++ g x) st)) ->
  forall st,
    forEach f l st = (Normal tt, set_logged (logged st ++ flat_map g l) st).
Proof.
  intros Hf. induction l as [|x l IH]; intros st; cbn [forEach flat_map].
  - unfold ret. rewrite app_nil_r, set_logged_same. reflexivity.
  - unfold bind. rewrite Hf, IH. cbn. rewrite <- app_assoc. reflexivity.
Qed.

Lemma split_lines_nonempty s : split_lines s <> [].
Proof.
  destruct s as [|c s]; cbn; [discriminate |].
  destruct (Ascii.eqb c nl); [discriminate |].
  destruct (split_lines s); discriminate.
Qed.

Lemma concat_cons_char sep c l ls :
  String.concat sep (String c l :: ls) = String c (String.concat sep (l :: ls)).
Proof. destruct ls; reflexivity. Qed.

(** Replacing every line feed by a line feed and two tabs is joining the
    lines with a line feed and two tabs. *)
Lemma indent_lines_indented s : indent_lines s = indented s.
Proof.
  unfold indented. induction s as [|c s IH]; [reflexivity |].
  cbn [indent_lines split_lines].
  destruct (Ascii.eqb c nl) eqn:E.
  - rewrite IH. destruct (split_lines s) as [|l ls] eqn:El;
      [exfalso; exact (split_lines_nonempty s El) |].
    reflexivity.
  - rewrite IH. destruct (split_lines s) as [|l ls] eqn:El;
      [exfalso; exact (split_lines_nonempty s El) |].
    rewrite concat_cons_char. reflexivity.
Qed.

Lemma print_assertion_lines a st :
  print_assertion a st =
  (Normal tt,
   set_logged (logged st ++ if passed a then [] else failure_lines a) st).
Proof.
  unfold print_assertion, failure_lines. destruct (passed a); cbn [negb].
  - unfold ret. rewrite app_nil_r, set_logged_same. reflexivity.
  - unfold bind, logger, modify.
    replace (to_string (default VUndefined (errorMsg a)))
      with (match errorMsg a with
            | Some m => to_string m
            | None => "undefined"
            end) by (destruct (errorMsg a); reflexivity).
    destruct (stackTrace a) as [[[|c s]|]|]; try reflexivity.
    rewrite <- indent_lines_indented.
    unfold set_logged. cbn [logged pluginObjs assertions copied resultsReported
                            invoked truthy negb String.eqb].
    rewrite <- app_assoc. reflexivity.
Qed.

Lemma failed_lines l :
  flat_map (fun a => if passed a then [] else failure_lines a) l =
  records_lines l.
Proof.
  induction l as [|[[] m t] l IH]; cbn [flat_map records_lines passed];
    rewrite ?IH; reflexivity.
Qed.

Lemma print_spec_lines sr st :
  print_spec sr st =
  (Normal tt, set_logged (logged st ++ spec_lines sr) st).
Proof.
  unfold print_spec, spec_lines, printResult. rewrite all_passed.
  unfold bind, logger, modify. cbn [fst snd].
  destruct (forallb passed (assertions_of sr)); cbn [negb].
  - reflexivity.
  - rewrite (forEach_lines print_assertion _ _ print_assertion_lines).
    cbn. rewrite <- app_assoc, failed_lines. reflexivity.
Qed.

Lemma printPluginResults_lines rs st :
  printPluginResults rs st =
  (Normal tt, set_logged (logged st ++ flat_map spec_lines rs) st).
Proof. apply forEach_lines, print_spec_lines. Qed.

(** X13: [printPluginResults] returns without throwing and changes nothing
    but the log.  For each spec in turn it writes one line with the verdict,
    [Pass: ] when every record of the spec passed (also when it has none),
    [Fail: ] otherwise; under a failed spec it writes, for each failed
    record in order, the error message and, when the stack trace is a
    non-empty string, the stack trace with every line but the first behind
    two tabs; records that passed are never printed.  So a spec ["S"] with
    a passed record and a failed one with message ["x"] and a stack of lines
    ["a"] and ["b"], followed by a spec ["T"] without records, gives four
    lines. *)
Theorem printPluginResults_writes_these_lines :
  (forall rs st,
      printPluginResults rs st =
      (Normal tt, set_logged (logged st ++ flat_map spec_lines rs) st)) /\
  logged
    (snd (printPluginResults
            [{| description := "S";
                assertions_of :=
                  [{| passed := true; errorMsg := None; stackTrace := None |};
                   {| passed := false; errorMsg := Some (VStr "x");
                      stackTrace := Some (Some ("a" +:+ String nl "b")) |}]
             |};
             {| description := "T"; assertions_of := [] |}]
            (initial []))) =
  [{| lvl := LInfo; parts := [red; tab; "Fail: "; "S"; normalColor] |};
   {| lvl := LError; parts := [tab +:+ tab +:+ "x"] |};
   {| lvl := LError;
      parts := [tab +:+ tab +:+ "a" +:+ String nl (tab +:+ tab +:+ "b")] |};
   {| lvl := LInfo; parts := [green; tab; "Pass: "; "T"; normalColor] |}].
Proof. split; [exact printPluginResults_lines | reflexivity]. Qed.

(** ** The isolated call, case by case *)

Lemma safeCallPluginFun_missing obj f args pt fv st :
  hooks obj f = None ->
  safeCallPluginFun obj f args pt fv st =
  logError obj f fv (cannot_read "apply" VUndefined) st.
Proof.
  intros Hh. unfold safeCallPluginFun, try_catch, bind, invoke.
  rewrite Hh. reflexivity.
Qed.

Lemma runtime_spec_lines obj f e :
  nullish e = false ->
  spec_lines
    {| description := ostring_to_string (name obj) +:+ " Runtime";
       assertions_of :=
         [{| passed := false;
             errorMsg :=
               Some (VStr ("Failure during " +:+ f +:+ ": " +:+
                           to_string (js_or (of_ostring (message_of e)) e)));
             stackTrace := Some (stack_of e) |}] |} =
  runtime_lines obj f e.
Proof.
  intros H.
  destruct e as [| |b|r nz|s|[[|c m]|] [[|c' s']|] r]; try discriminate H;
    reflexivity.
Qed.

Lemma logError_reported_lines obj f fv e st :
  nullish e = false -> resultsReported st = true ->
  logError obj f fv e st =
  (Normal (Resolved fv), set_logged (logged st ++ runtime_lines obj f e) st).
Proof.
  intros H E. unfold logError, bind, get. rewrite E.
  rewrite get_message_ok, get_stack_ok by exact H.
  rewrite printPluginResults_lines. cbn [flat_map]. rewrite app_nil_r.
  rewrite runtime_spec_lines by exact H. reflexivity.
Qed.

(** X14: after the report, when the awaitable a hook returned is rejected
    with a cause other than [undefined] or [null], the store is left as it
    is: the failure is printed as a failed spec ["<name> Runtime"] with the
    message ["Failure during <hook>: "] followed by the cause's message, or
    by the cause itself when it has no message or an empty one, then the
    cause's stack when it has a non-empty one, and the deferred is fulfilled
    with the fail value.  The same is printed, for the [TypeError] of the
    missing function, when the plugin does not have the hook. *)
Theorem hook_failure_after_the_report :
  forall obj f args pt fv e st,
    resultsReported st = true ->
    (nullish e = false ->
     hookSettled (Waiting obj f fv (Rejected e)) st =
     (Normal (Resolved fv),
      set_logged (logged st ++ runtime_lines obj f e) st)) /\
    (hooks obj f = None ->
     safeCallPluginFun obj f args pt fv st =
     (Normal (Resolved fv),
      set_logged
        (logged st ++ runtime_lines obj f (cannot_read "apply" VUndefined))
        st)).
Proof.
  intros obj f args pt fv e st Hr. split.
  - intros Hn. cbn [hookSettled]. unfold try_catch.
    rewrite logError_reported_lines by assumption. reflexivity.
  - intros Hh. rewrite safeCallPluginFun_missing by exact Hh.
    rewrite logError_reported_lines by (cbn; auto). reflexivity.
Qed.

Lemma hook_failure_after_the_report_witness :
  let obj := rejecter (VNum "1e+21" true) in
  let st := snd (getResults (initial [obj])) in
  let d := Waiting obj "setup" VUndefined (Rejected (VNum "1e+21" true)) in
  resultsReported st = true /\
  fst (hookSettled d st) = Normal (Resolved VUndefined) /\
  logged (snd (hookSettled d st)) =
  [{| lvl := LInfo;
      parts := [red; tab; "Fail: "; "A Runtime"; normalColor] |};
   {| lvl := LError;
      parts := [tab +:+ tab +:+ "Failure during setup: 1e+21"] |}] /\
  assertions (snd (hookSettled d st)) = [].
Proof.
  intros obj st d. split; [reflexivity |].
  unfold d.
  rewrite (proj1 (hook_failure_after_the_report
                    obj "setup" [] Q VUndefined (VNum "1e+21" true) st
                    eq_refl) eq_refl).
  repeat split.
Defined.

(** X15: before the report, when the awaitable a hook returned is rejected
    with an object with the message [m], one failed record is appended
    under ["<name> Plugin Tests"]: its [errorMsg] is
    ["Failure during <hook>: " + m], its [stackTrace] is the object's stack
    when that is a non-empty string and is absent otherwise; nothing else
    is written and the deferred is fulfilled with the fail value. *)
Theorem hook_failure_before_the_report :
  forall obj f fv m stk repr st,
    resultsReported st = false ->
    let e := VObj (Some m) stk repr in
    let record :=
      {| passed := false;
         errorMsg := Some (VStr ("Failure during " +:+ f +:+ ": " +:+ m));
         stackTrace := match stk with
                       | Some (String _ _) => Some stk
                       | _ => None
                       end |} in
    let key := ostring_to_string (name obj) +:+ " Plugin Tests" in
    hookSettled (Waiting obj f fv (Rejected e)) st =
    (Normal (Resolved fv),
     set_assertions (push_assertion key record (assertions st)) st).
Proof.
  intros obj f fv m stk repr st Hr e record key.
  cbn [hookSettled]. unfold try_catch.
  rewrite logError_open by (cbn; auto).
  subst record key e. unfold failure_record.
  destruct stk as [[|c s]|]; reflexivity.
Qed.

Lemma hook_failure_before_the_report_witness :
  let obj := rejecter boom in
  let st := initial [obj] in
  resultsReported st = false /\
  hookSettled (Waiting obj "setup" VUndefined (Rejected boom)) st =
  (Normal (Resolved VUndefined),
   set_assertions
     [("A Plugin Tests",
       [{| passed := false;
           errorMsg := Some (VStr "Failure during setup: boom");
           stackTrace := Some (Some "Error: boom") |}])] st).
Proof.
  intros obj st. split; [reflexivity |].
  etransitivity;
    [apply (hook_failure_before_the_report
              obj "setup" VUndefined "boom" (Some "Error: boom")
              "Error: boom" st eq_refl)
    | reflexivity].
Defined.

(** X16: [safeCallPluginFun] for a hook the plugin does not have neither
    throws nor invokes anything: before the report it appends one failed
    record under ["<name> Plugin Tests"], and it fulfils the deferred with
    the fail value. *)
Theorem missing_hook_is_recorded_as_failure :
  forall obj f args pt fv st,
    hooks obj f = None ->
    resultsReported st = false ->
    exists record,
      safeCallPluginFun obj f args pt fv st =
      (Normal (Resolved fv),
       set_assertions
         (push_assertion (ostring_to_string (name obj) +:+ " Plugin Tests")
                         record (assertions st)) st) /\
      passed record = false.
Proof.
  intros obj f args pt fv st Hh Hr.
  rewrite safeCallPluginFun_missing by exact Hh.
  rewrite logError_open by (cbn; auto).
  eexists. split; reflexivity.
Qed.

Lemma missing_hook_is_recorded_as_failure_witness :
  let obj := thrower boom in
  let st := initial [obj] in
  hooks obj "teardown" = None /\
  resultsReported st = false /\
  exists record,
    safeCallPluginFun obj "teardown" [] Q VUndefined st =
    (Normal (Resolved VUndefined),
     set_assertions (push_assertion "A Plugin Tests" record (assertions st))
                    st) /\
    passed record = false.
Proof.
  intros obj st. split; [reflexivity |]. split; [reflexivity |].
  apply (missing_hook_is_recorded_as_failure obj "teardown" [] Q VUndefined st);
    reflexivity.
Defined.

(** ** More on the fan-out *)

Lemma call_each_none f args pt fv objs :
  forall acc st,
    List.filter (defines f) objs = [] ->
    call_each objs f args pt fv acc st = (Normal acc, st).
Proof.
  induction objs as [|obj objs IH]; intros acc st H; [reflexivity |].
  rewrite filter_defines_cons in H. cbn [call_each].
  destruct (hooks obj f); [discriminate | apply IH, H].
Qed.

(** X18: when no registered plugin defines the hook, in particular when no
    plugin is registered, the dispatch invokes nothing, changes nothing and
    returns a combined awaitable that is already fulfilled with the empty
    array. *)
Theorem dispatch_without_takers :
  forall f pt fv args st,
    List.filter (defines f) (pluginObjs st) = [] ->
    pluginFunFactory f pt fv args st = (Normal [], st) /\
    combined [] = Fulfilled [].
Proof.
  intros f pt fv args st H. split; [| reflexivity].
  rewrite pluginFunFactory_eq. apply call_each_none, H.
Qed.

Lemma dispatch_without_takers_witness :
  let st := initial three_plugins in
  List.filter (defines "postTest") (pluginObjs st) = [] /\
  postTest [VNum "1" true] st = (Normal [], st) /\
  combined [] = Fulfilled [].
Proof.
  intros st. split; [reflexivity |].
  apply (dispatch_without_takers "postTest" Q VUndefined [VNum "1" true] st).
  reflexivity.
Defined.

(** X20: there is no timeout: when the hook of a plugin returns an
    awaitable that never settles, the combined awaitable of the dispatch
    stays pending whatever settles and whatever is done afterwards. *)
Theorem hung_hook_stalls_the_dispatch :
  forall f pt fv args st promises st' i obj h,
    pluginFunFactory f pt fv args st = (Normal promises, st') ->
    List.filter (defines f) (pluginObjs st) !! i = Some obj ->
    hooks obj f = Some h ->
    h args = ReturnsPromise Pending ->
    forall evs st1, combined (fst (play evs promises st1)) = Pending.
Proof.
  intros f pt fv args st promises st' i obj h E Hi Hh Hv evs st1.
  rewrite pluginFunFactory_eq in E.
  apply call_each_normal in E as [-> _]. cbn [app]. rewrite play_fst.
  set (ds := map (fun o => first_form o f args fv)
                 (List.filter (defines f) (pluginObjs st))).
  assert (ds !! i = Some (Waiting obj f fv Pending)) as Hd.
  { subst ds.
    change (map (fun o => first_form o f args fv))
      with (fmap (M := list) (fun o => first_form o f args fv)).
    rewrite list_lookup_fmap, Hi. cbn.
    unfold first_form, started. rewrite Hh, Hv. reflexivity. }
  destruct (fold_turn_lookup evs ds i) as [Hor _].
  rewrite Hd in Hor. cbn in Hor.
  assert (fold_left turn evs ds !! i = Some (Waiting obj f fv Pending)) as Hw
    by (destruct Hor; assumption).
  destruct (combined (fold_left turn evs ds)) as [|arr|e] eqn:Ec.
  - reflexivity.
  - apply combined_Fulfilled in Ec. rewrite Ec in Hw.
    change (map Resolved arr) with (Resolved <$> arr) in Hw.
    rewrite list_lookup_fmap in Hw. destruct (arr !! i); discriminate.
  - exfalso. eapply promise_all_never_rejects, Ec.
Qed.

Lemma hung_hook_stalls_the_dispatch_witness :
  let obj := plugin_with "H" "setup" (fun _ => ReturnsPromise Pending) in
  let st := initial [thrower boom; obj] in
  exists promises st',
    setup [] st = (Normal promises, st') /\
    combined (fst (play [Completes 1; Completes 0; Does CallGetResults]
                        promises st')) = Pending.
Proof.
  intros obj st. eexists _, _. split; [reflexivity |].
  eapply (hung_hook_stalls_the_dispatch
            "setup" Q VUndefined [] st _ _ 1 obj); reflexivity.
Defined.

(** ** The constructor *)

Section LoadingFacts.

Variable resolveFilePatterns : string -> bool -> ostring -> list string.
Variable require : string -> completion ProtractorPlugin.

Lemma load_eq config i pluginConf st :
  load resolveFilePatterns require config i pluginConf st =
  match source_of resolveFilePatterns require config pluginConf with
  | Normal src =>
      let obj := annotatePluginObj src (entry_conf pluginConf) i in
      (Normal tt,
       set_pluginObjs
         (pluginObjs st ++ [obj])
         (set_logged
            (logged st ++
             [{| lvl := LDebug;
                 parts := ["Plugin " +:+ dquote +:+
                           ostring_to_string (name obj) +:+ dquote +:+
                           " loaded."] |}]) st))
  | Thrown e => (Thrown e, st)
  end.
Proof.
  unfold load, source_of, resolve_path, resolve_obj, from_inline, bind, lift.
  destruct (path (entry_conf pluginConf)) as [[|c p]|]; cbn.
  - destruct (package (entry_conf pluginConf)) as [[|c q]|]; cbn;
      try reflexivity; try (destruct (require _); reflexivity);
      destruct (inline pluginConf); reflexivity.
  - destruct (head _) as [[|c' r]|]; cbn;
      try reflexivity; destruct (require _); reflexivity.
  - destruct (package (entry_conf pluginConf)) as [[|c q]|]; cbn;
      try reflexivity; try (destruct (require _); reflexivity);
      destruct (inline pluginConf); reflexivity.
Qed.

Lemma load_from_throws config pre bad post e :
  Forall (fun c => exists src,
              source_of resolveFilePatterns require config c = Normal src)
         pre ->
  source_of resolveFilePatterns require config bad = Thrown e ->
  forall i st,
    let r := load_from resolveFilePatterns require config i
                       (pre ++ bad :: post) st in
    fst r = Thrown e /\
    length (pluginObjs (snd r)) = length (pluginObjs st) + length pre.
Proof.
  intros Hpre Hbad.
  induction Hpre as [|c pre [src Hc] _ IH]; intros i st; cbv zeta in *;
    cbn [app load_from].
  - unfold bind. rewrite load_eq, Hbad. cbn. split; [reflexivity | lia].
  - unfold bind. rewrite load_eq, Hc. cbv zeta.
    destruct (IH (S i)
                 (set_pluginObjs
                    (pluginObjs st ++
                     [annotatePluginObj src (entry_conf c) i])
                    (set_logged
                       (logged st ++
                        [{| lvl := LDebug;
                            parts := ["Plugin " +:+ dquote +:+
                                      ostring_to_string
                                        (name (annotatePluginObj
                                                 src (entry_conf c) i)) +:+
                                      dquote +:+ " loaded."] |}]) st)))
      as [H1 H2].
    split; [exact H1 |]. rewrite H2. cbn. rewrite length_app. cbn. lia.
Qed.

Lemma load_from_normal config pluginConfs :
  forall i st st',
    load_from resolveFilePatterns require config i pluginConfs st = (Normal tt, st') ->
    exists objs,
      pluginObjs st' = pluginObjs st ++ objs /\
      length objs = length pluginConfs /\
      (forall j c, pluginConfs !! j = Some c ->
                   exists obj, objs !! j = Some obj /\
                               loaded_for resolveFilePatterns require
                                          config (i + j) c obj) /\
      assertions st' = assertions st /\
      resultsReported st' = resultsReported st /\
      invoked st' = invoked st /\
      length (logged st') = length (logged st) + length pluginConfs.
Proof.
  induction pluginConfs as [|c cs IH]; intros i st st' E; cbn [load_from] in E.
  - injection E as <-. exists []. rewrite app_nil_r. cbn.
    repeat split; try lia. intros j c H. discriminate.
  - unfold bind in E. rewrite load_eq in E.
    destruct (source_of resolveFilePatterns require config c) as [src|e] eqn:Hc; [| discriminate].
    cbv zeta in E. apply IH in E as (objs & Hobjs & Hlen & Hall & Ha & Hr & Hi & Hl).
    exists (annotatePluginObj src (entry_conf c) i :: objs).
    cbn in *. rewrite Hobjs, <- app_assoc.
    split; [reflexivity |]. split; [lia |]. split.
    + intros [|j] c' Hj; cbn in *.
      * injection Hj as <-. eexists. split; [reflexivity |].
        exists src. rewrite Nat.add_0_r. auto.
      * destruct (Hall j c' Hj) as (obj & Ho & Hfor).
        exists obj. split; [exact Ho |].
        replace (i + S j) with (S i + j) by lia. exact Hfor.
    + rewrite length_app in Hl. cbn in Hl. repeat split; auto; lia.
Qed.

End LoadingFacts.

Lemma load_from_returns resolveFilePatterns require config pluginConfs :
  Forall (fun c => exists src,
              source_of resolveFilePatterns require config c = Normal src)
         pluginConfs ->
  forall i st,
    exists st',
      load_from resolveFilePatterns require config i pluginConfs st =
      (Normal tt, st').
Proof.
  induction 1 as [|c cs [src Hc] _ IH]; intros i st; cbn [load_from].
  - eexists. reflexivity.
  - unfold bind. rewrite load_eq, Hc. cbv zeta. apply IH.
Qed.

Lemma no_source_refused resolveFilePatterns require config c :
  has_source c = false ->
  source_of resolveFilePatterns require config c = Thrown (Error_ no_source).
Proof.
  unfold has_source, source_of. intros H.
  apply orb_false_elim in H as [H Hi]. apply orb_false_elim in H as [Hp Hk].
  rewrite Hp, Hk. destruct (inline c); [discriminate | reflexivity].
Qed.

Lemma bad_path_refused resolveFilePatterns require config c p :
  path (entry_conf c) = Some p -> p <> EmptyString ->
  truthy_s (head (resolveFilePatterns p true (configDir config))) = false ->
  source_of resolveFilePatterns require config c =
  Thrown (Error_ ("Invalid path to plugin: " +:+ p)).
Proof.
  intros Hp Hne Hr. unfold source_of. rewrite Hp.
  assert (truthy_s (Some p) = true) as ->
    by (destruct p; [exfalso; apply Hne; reflexivity | reflexivity]).
  cbn [ostring_to_string of_ostring to_string].
  destruct (head _) as [r|]; [| reflexivity]. rewrite Hr. reflexivity.
Qed.

(** X21: the constructor returns when every entry of [config.plugins] can
    be loaded, and with [config.plugins] missing or empty it registers
    nothing.  When it returns, the registered plugins are one per entry, in
    the order of the entries: each is the entry's object (the module at the
    first resolved path when [path] is set, else the module [package]
    names, else the [inline] object) annotated with the entry and its
    index, and it has a non-empty name; the store is empty, the results are
    unreported, nothing has been invoked, and one line per plugin has gone
    to the logger. *)
Theorem new_Plugins_registers_every_entry :
  forall resolveFilePatterns require config,
    let pluginConfs := default [] (plugins config) in
    (Forall (fun c => exists src,
                 source_of resolveFilePatterns require config c = Normal src)
            pluginConfs ->
     exists st,
       new_Plugins resolveFilePatterns require config = (Normal tt, st)) /\
    forall st,
      new_Plugins resolveFilePatterns require config = (Normal tt, st) ->
      length (pluginObjs st) = length pluginConfs /\
      (forall j c,
          pluginConfs !! j = Some c ->
          exists obj,
            pluginObjs st !! j = Some obj /\
            loaded_for resolveFilePatterns require config j c obj /\
            truthy_s (name obj) = true) /\
      assertions st = [] /\
      resultsReported st = false /\
      invoked st = [] /\
      length (logged st) = length pluginConfs.
Proof.
  intros resolveFilePatterns require config pluginConfs. split.
  - intros H. apply load_from_returns, H.
  - intros st E. unfold new_Plugins in E.
    apply load_from_normal in E
      as (objs & Hobjs & Hlen & Hall & Ha & Hr & Hi & Hl).
    cbn in Hobjs. rewrite Hobjs. repeat split; auto.
    intros j c Hj. destruct (Hall j c Hj) as (obj & Ho & Hfor).
    exists obj. repeat split; auto.
    destruct Hfor as (src & _ & ->). apply assigned_name_truthy.
Qed.

Lemma new_Plugins_registers_every_entry_witness :
  let resolve := fun (p : string) (_ : bool) (_ : ostring) => [p] in
  let require := fun p : string =>
    Normal (plugin_with p "setup" (fun _ => Returns VNull)) in
  let inlined :=
    {| skipAngularStability := true; name := None; config := None;
       hooks := fun _ => None |} in
  let config :=
    {| plugins :=
         Some [{| entry_conf := {| path := Some "a.js"; package := None;
                                   conf_name := None |};
                  inline := None |};
               {| entry_conf := {| path := None; package := None;
                                   conf_name := None |};
                  inline := Some inlined |}];
       configDir := None |} in
  exists st,
    new_Plugins resolve require config = (Normal tt, st) /\
    map name (pluginObjs st) = [Some "a.js"; Some "Plugin #1"] /\
    length (logged st) = 2.
Proof.
  intros resolve require inlined config.
  destruct (new_Plugins_registers_every_entry resolve require config)
    as [Hret Hshape].
  destruct Hret as [st E].
  { repeat constructor; eexists; reflexivity. }
  exists st. split; [exact E |].
  destruct (Hshape st E) as (_ & _ & _ & _ & _ & Hl).
  split; [| exact Hl].
  cbv in E. injection E as <-. reflexivity.
Defined.

(** X22: an entry with neither a non-empty [path], nor a non-empty
    [package], nor an [inline] object makes the constructor throw
    ["Plugin configuration did not contain a valid path or inline
    definition."]; the entries before it have been loaded, the ones after
    it are not looked at. *)
Theorem entry_without_source_is_refused :
  forall resolveFilePatterns require config pre bad post,
    plugins config = Some (pre ++ bad :: post) ->
    Forall (fun c => exists src,
                source_of resolveFilePatterns require config c = Normal src)
           pre ->
    has_source bad = false ->
    fst (new_Plugins resolveFilePatterns require config) =
    Thrown (Error_ no_source) /\
    length (pluginObjs (snd (new_Plugins resolveFilePatterns require config)))
    = length pre.
Proof.
  intros resolveFilePatterns require config pre bad post Hc Hpre Hbad.
  unfold new_Plugins. rewrite Hc. cbn [default].
  apply (load_from_throws resolveFilePatterns require config pre bad post
                          _ Hpre).
  apply no_source_refused, Hbad.
Qed.

Lemma entry_without_source_is_refused_witness :
  let resolve := fun (p : string) (_ : bool) (_ : ostring) => [p] in
  let require := fun p : string =>
    Normal (plugin_with p "setup" (fun _ => Returns VNull)) in
  let good := {| entry_conf := {| path := None; package := Some "pkg";
                                  conf_name := None |};
                 inline := None |} in
  let bad := {| entry_conf := {| path := Some EmptyString; package := None;
                                 conf_name := Some "nameless" |};
                inline := None |} in
  let config := {| plugins := Some ([good] ++ bad :: [good]);
                   configDir := None |} in
  has_source bad = false /\
  fst (new_Plugins resolve require config) = Thrown (Error_ no_source) /\
  length (pluginObjs (snd (new_Plugins resolve require config))) = 1.
Proof.
  intros resolve require good bad config. split; [reflexivity |].
  apply (entry_without_source_is_refused resolve require config
                                         [good] bad [good]).
  - reflexivity.
  - repeat constructor. eexists. reflexivity.
  - reflexivity.
Defined.

(** X23: an entry with a non-empty [path] for which the resolution gives
    no path makes the constructor throw
    ["Invalid path to plugin: <path>"], whether or not the entry also has
    a [package] or an [inline] object: there is no falling back. *)
Theorem unresolved_path_is_refused :
  forall resolveFilePatterns require config pre bad post p,
    plugins config = Some (pre ++ bad :: post) ->
    Forall (fun c => exists src,
                source_of resolveFilePatterns require config c = Normal src)
           pre ->
    path (entry_conf bad) = Some p -> p <> EmptyString ->
    truthy_s (head (resolveFilePatterns p true (configDir config))) = false ->
    fst (new_Plugins resolveFilePatterns require config) =
    Thrown (Error_ ("Invalid path to plugin: " +:+ p)).
Proof.
  intros resolveFilePatterns require config pre bad post p Hc Hpre Hp Hne Hr.
  unfold new_Plugins. rewrite Hc. cbn [default].
  apply (load_from_throws resolveFilePatterns require config pre bad post
                          _ Hpre).
  apply bad_path_refused; assumption.
Qed.

Lemma unresolved_path_is_refused_witness :
  let resolve := fun (_ : string) (_ : bool) (_ : ostring) => @nil string in
  let require := fun p : string =>
    Normal (plugin_with p "setup" (fun _ => Returns VNull)) in
  let bad := {| entry_conf := {| path := Some "missing/*.js";
                                 package := Some "pkg";
                                 conf_name := None |};
                inline := Some (thrower boom) |} in
  let config := {| plugins := Some ([] ++ bad :: []);
                   configDir := Some "/conf" |} in
  fst (new_Plugins resolve require config) =
  Thrown (Error_ "Invalid path to plugin: missing/*.js").
Proof.
  intros resolve require bad config.
  apply (unresolved_path_is_refused resolve require config [] bad []
                                    "missing/*.js").
  - reflexivity.
  - constructor.
  - reflexivity.
  - discriminate.
  - reflexivity.
Defined.
